(** * Sliding-window rate limiter: shallow embedding and verification

    This development embeds [src/app/utils/rate_limiter.py] (classes
    [RateLimiter] and [AdvancedRateLimiter]) and proves the properties
    stated about it.  It also embeds the middleware of [src/main.py] that
    uses the limiter, and the in-memory stores of
    [src/app/services/content_service.py] and
    [src/app/services/agent_service.py].

    Modelling conventions.
    - Instants returned by [time.time()] and window lengths are exact
      integers ([Z], e.g. clock ticks); rounding of Python floats is not
      modelled.
    - A Python [dict] keyed by strings is a [gmap string _], which does
      not record the order of insertion.  Where the result of an iteration
      does not depend on the order ([cleanup_old_entries], [get_stats]) it
      follows [map_to_list]; where it does ([get_all_clients_status], which
      reads the clock once per key) the order of the keys is an argument.
    - A Python [str] is the [string] of its UTF-8 bytes; [len] counts code
      points.
    - A [deque] of timestamps is a [list Z], oldest first: [popleft]
      removes the head, [append] adds at the tail.  The deque stored in the
      dictionary and the local variable [client_requests] are one object in
      Python; every mutation is therefore written back under the client's
      key.
    - Calls to [logger] have no effect on the modelled state. *)

From stdpp Require Import gmap strings list fin_maps sorting.

Local Open Scope Z_scope.

(** ** Exceptions and outcomes of a call *)

Inductive exn : Type :=
  | ValueError (msg : string)
  | KeyError (key : string).

Inductive outcome (A : Type) : Type :=
  | Raised (e : exn)
  | Returned (a : A).
Arguments Raised {A} e.
Arguments Returned {A} a.

(** ** Deques of timestamps *)

(** The loop
    [while client_requests and client_requests[0] <= cutoff: popleft()]. *)
Fixpoint expire (cutoff : Z) (requests : list Z) : list Z :=
  match requests with
  | [] => []
  | oldest :: rest =>
      if decide (oldest ≤ cutoff) then expire cutoff rest else requests
  end.

(** [defaultdict(deque).__getitem__]: a missing key is created with an empty
    deque, and the dictionary is changed by the read. *)
Definition getitem_default (client_id : string) (history : gmap string (list Z))
  : list Z * gmap string (list Z) :=
  match history !! client_id with
  | Some requests => (requests, history)
  | None => ([], <[client_id := []]> history)
  end.

(** ** class RateLimiter *)

Module RateLimiter.

Record t : Type := Build {
  max_requests : Z;
  time_window : Z;
  request_history : gmap string (list Z)
}.

Definition with_history (self : t) (history : gmap string (list Z)) : t :=
  {| max_requests := max_requests self;
     time_window := time_window self;
     request_history := history |}.

(** [__init__]: the two arguments are stored as given. *)
Definition init (max_requests time_window : Z) : outcome t :=
  Returned {| max_requests := max_requests;
              time_window := time_window;
              request_history := ∅ |}.

(** The dictionary returned by [get_client_status]. *)
Record status : Type := Status {
  client_id : string;
  requests_used : nat;
  requests_remaining : Z;
  status_max_requests : Z;
  status_time_window : Z;
  reset_time : option Z;
  is_limited : bool
}.

(** The dictionary returned by [get_stats]. *)
Record stats : Type := Stats {
  total_clients : nat;
  active_clients : nat;
  limited_clients : nat;
  total_requests_tracked : nat;
  max_requests_per_window : Z;
  time_window_seconds : Z
}.

(** [allow_request], with [now] the value read from [time.time()]. *)
Definition allow_request (now : Z) (client_id : string) (self : t) : bool * t :=
  let '(client_requests, history) :=
    getitem_default client_id (request_history self) in
  let client_requests := expire (now - time_window self) client_requests in
  let history := <[client_id := client_requests]> history in
  if decide (max_requests self ≤ Z.of_nat (length client_requests)) then
    (false, with_history self history)
  else
    let client_requests := client_requests ++ [now] in
    (true, with_history self (<[client_id := client_requests]> history)).

Definition get_client_status (now : Z) (client_id : string) (self : t)
  : status * t :=
  let '(client_requests, history) :=
    getitem_default client_id (request_history self) in
  let client_requests := expire (now - time_window self) client_requests in
  let history := <[client_id := client_requests]> history in
  let requests_used := length client_requests in
  let requests_remaining := Z.max 0 (max_requests self - Z.of_nat requests_used) in
  let reset_time :=
    match client_requests with
    | [] => None
    | oldest :: _ => Some (oldest + time_window self)
    end in
  ({| client_id := client_id;
      requests_used := requests_used;
      requests_remaining := requests_remaining;
      status_max_requests := max_requests self;
      status_time_window := time_window self;
      reset_time := reset_time;
      is_limited := bool_decide (max_requests self ≤ Z.of_nat requests_used) |},
   with_history self history).

(** [get_all_clients_status]: one [get_client_status] call per key of the
    dictionary, in the order in which the dictionary lists its keys (the
    order of insertion).  The map does not record that order: it is the
    argument [keys], an ordering of the tracked clients.  Each call reads
    the clock itself, so the call for the [k]-th key sees [clock (tick + k)].
    Returns the statuses, the next tick and the limiter. *)
Definition get_all_clients_status (clock : nat → Z) (tick : nat)
    (keys : list string) (self : t) : list status * nat * t :=
  foldl (λ '(out, tick, self) client_id,
           let '(st, self) := get_client_status (clock tick) client_id self in
           (out ++ [st], S tick, self))
        ([], tick, self)
        keys.

Definition reset_client (client_id : string) (self : t) : bool * t :=
  if decide (is_Some (request_history self !! client_id)) then
    (true, with_history self (delete client_id (request_history self)))
  else (false, self).

(** First loop of [cleanup_old_entries]: trim every deque in place and
    collect the clients whose deque became empty. *)
Definition cleanup_scan (cutoff : Z) (history : gmap string (list Z))
  : gmap string (list Z) * list string :=
  foldl (λ '(history, clients_to_remove) '(client_id, requests),
           let requests := expire cutoff requests in
           (<[client_id := requests]> history,
            match requests with
            | [] => clients_to_remove ++ [client_id]
            | _ => clients_to_remove
            end))
        (history, [])
        (map_to_list history).

Definition cleanup_old_entries (now : Z) (self : t) : t :=
  let '(history, clients_to_remove) :=
    cleanup_scan (now - time_window self) (request_history self) in
  with_history self
    (foldl (λ history client_id, delete client_id history)
           history clients_to_remove).

Definition get_stats (now : Z) (self : t) : stats * t :=
  let total_clients := size (request_history self) in
  let total_requests :=
    foldl (λ acc '(_, requests), (acc + length requests)%nat) 0%nat
          (map_to_list (request_history self)) in
  let '(active_clients, limited_clients) :=
    foldl (λ '(active, limited) '(_, requests),
             let recent_requests :=
               filter (λ r, now - time_window self < r) requests in
             match recent_requests with
             | [] => (active, limited)
             | _ =>
                 (S active,
                  if decide (max_requests self
                             ≤ Z.of_nat (length recent_requests))
                  then S limited else limited)
             end)
          (0%nat, 0%nat)
          (map_to_list (request_history self)) in
  ({| total_clients := total_clients;
      active_clients := active_clients;
      limited_clients := limited_clients;
      total_requests_tracked := total_requests;
      max_requests_per_window := max_requests self;
      time_window_seconds := time_window self |},
   self).

End RateLimiter.

(** ** class AdvancedRateLimiter *)

Module AdvancedRateLimiter.

Record t : Type := Build {
  limiters : gmap string RateLimiter.t;
  client_tiers : gmap string string
}.

(** [__init__]: both dictionaries start empty. *)
Definition init : t := {| limiters := ∅; client_tiers := ∅ |}.

Definition with_limiters (self : t) (ls : gmap string RateLimiter.t) : t :=
  {| limiters := ls; client_tiers := client_tiers self |}.

Definition with_client_tiers (self : t) (tiers : gmap string string) : t :=
  {| limiters := limiters self; client_tiers := tiers |}.

(** The status dictionary with the added key ["tier"]. *)
Record status : Type := Status {
  base : RateLimiter.status;
  tier : string
}.

(** A method returns or raises, and in both cases leaves the object
    behind: a state monad over [t] with exceptions. *)
Definition M (A : Type) : Type := t → outcome A * t.

#[global] Instance M_ret : MRet M := λ A a self, (Returned a, self).
#[global] Instance M_bind : MBind M := λ A B k m self,
  match m self with
  | (Raised e, self) => (Raised e, self)
  | (Returned a, self) => k a self
  end.

Definition raise {A} (e : exn) : M A := λ self, (Raised e, self).
Definition gets {A} (f : t → A) : M A := λ self, (Returned (f self), self).
Definition modify (f : t → t) : M () := λ self, (Returned (), f self).
Definition lift {A} (o : outcome A) : M A := λ self, (o, self).

(** [self.limiters[tier_name]] as a read.  The limiter read here is the
    object stored in the dictionary: the methods below write it back under
    its tier name after calling it. *)
Definition limiter_of (tier_name : string) : M RateLimiter.t :=
  ls ← gets limiters;
  match ls !! tier_name with
  | Some limiter => mret limiter
  | None => raise (KeyError tier_name)
  end.

Definition add_tier (tier_name : string) (max_requests time_window : Z)
  : M () :=
  limiter ← lift (RateLimiter.init max_requests time_window);
  modify (λ self, with_limiters self (<[tier_name := limiter]> (limiters self))).

Definition set_client_tier (client_id tier_name : string) : M () :=
  ls ← gets limiters;
  if decide (ls !! tier_name = None) then
    raise (ValueError ("Tier '" +:+ tier_name +:+ "' not found"))
  else
    modify (λ self, with_client_tiers self
                      (<[client_id := tier_name]> (client_tiers self))).

Definition allow_request (now : Z) (client_id : string) : M bool :=
  tiers ← gets client_tiers;
  let tier_name := default "default" (tiers !! client_id) in
  ls ← gets limiters;
  (if decide (ls !! tier_name = None)
   then add_tier "default" 60 60 else mret ());;
  limiter ← limiter_of tier_name;
  let '(allowed, limiter) :=
    RateLimiter.allow_request now client_id limiter in
  modify (λ self, with_limiters self (<[tier_name := limiter]> (limiters self)));;
  mret allowed.

Definition get_client_status (now : Z) (client_id : string) : M status :=
  tiers ← gets client_tiers;
  let tier_name := default "default" (tiers !! client_id) in
  ls ← gets limiters;
  (if decide (ls !! tier_name = None)
   then add_tier "default" 60 60 else mret ());;
  limiter ← limiter_of tier_name;
  let '(st, limiter) :=
    RateLimiter.get_client_status now client_id limiter in
  modify (λ self, with_limiters self (<[tier_name := limiter]> (limiters self)));;
  mret {| base := st; tier := tier_name |}.

End AdvancedRateLimiter.

(** ** Histories of calls on one limiter

    A limiter is driven by a sequence of method calls.  The process clock is
    a function from the number of [time.time()] readings taken so far to the
    instant read; the driver hands each method the reading it takes.  A call
    of [get_all_clients_status] comes with the order in which the dictionary
    lists its keys at that moment. *)

Inductive call : Type :=
  | AllowRequest (client_id : string)
  | GetClientStatus (client_id : string)
  | GetAllClientsStatus (keys : list string)
  | ResetClient (client_id : string)
  | CleanupOldEntries
  | GetStats.

Inductive reply : Type :=
  | RBool (b : bool)
  | RStatus (st : RateLimiter.status)
  | RStatuses (sts : list RateLimiter.status)
  | RNone
  | RStats (st : RateLimiter.stats).

#[global] Instance call_eq_dec : EqDecision call.
Proof. solve_decision. Defined.

(** One call: the reply, the number of clock readings taken so far, and the
    limiter afterwards.  A key list that is not an ordering of the tracked
    clients describes no call of [get_all_clients_status]; the limiter is
    then left alone. *)
Definition step (clock : nat → Z) (c : call) (w : nat * RateLimiter.t)
  : reply * (nat * RateLimiter.t) :=
  let '(tick, self) := w in
  match c with
  | AllowRequest client_id =>
      let '(b, self) := RateLimiter.allow_request (clock tick) client_id self in
      (RBool b, (S tick, self))
  | GetClientStatus client_id =>
      let '(st, self) := RateLimiter.get_client_status (clock tick) client_id self in
      (RStatus st, (S tick, self))
  | GetAllClientsStatus keys =>
      if decide (keys ≡ₚ (map_to_list (RateLimiter.request_history self)).*1)
      then
        let '(sts, tick, self) :=
          RateLimiter.get_all_clients_status clock tick keys self in
        (RStatuses sts, (tick, self))
      else (RStatuses [], (tick, self))
  | ResetClient client_id =>
      let '(b, self) := RateLimiter.reset_client client_id self in
      (RBool b, (tick, self))
  | CleanupOldEntries =>
      (RNone, (S tick, RateLimiter.cleanup_old_entries (clock tick) self))
  | GetStats =>
      let '(st, self) := RateLimiter.get_stats (clock tick) self in
      (RStats st, (S tick, self))
  end.

(** A log entry records the clock reading count at which the call started,
    the call and its reply. *)
Definition entry : Type := nat * call * reply.

Fixpoint run (clock : nat → Z) (calls : list call) (w : nat * RateLimiter.t)
  : list entry * (nat * RateLimiter.t) :=
  match calls with
  | [] => ([], w)
  | c :: calls =>
      let '(r, w') := step clock c w in
      let '(log, w'') := run clock calls w' in
      ((w.1, c, r) :: log, w'')
  end.

(** The instants at which [allow_request client_id] returned [True]. *)
Definition admitted (clock : nat → Z) (client_id : string) (log : list entry)
  : list Z :=
  flat_map (λ e : entry,
              match e with
              | (tick, AllowRequest c, RBool true) =>
                  if decide (c = client_id) then [clock tick] else []
              | _ => []
              end) log.

(** The limiter built by [RateLimiter(max_requests, time_window)]. *)
Definition fresh (max_requests time_window : Z) : RateLimiter.t :=
  RateLimiter.Build max_requests time_window ∅.

(** The deque stored for a client, empty when the client is not tracked. *)
Definition deque_of (client_id : string) (self : RateLimiter.t) : list Z :=
  default [] (RateLimiter.request_history self !! client_id).

(** ** Invariants of a history

    Between two clock readings the client's deque lost only a prefix of
    instants that were stale at some reading in between. *)
Definition trimmed (clock : nat → Z) (client_id : string)
    (tick : nat) (self : RateLimiter.t)
    (tick' : nat) (self' : RateLimiter.t) : Prop :=
  ∃ stale,
    deque_of client_id self = stale ++ deque_of client_id self'
    ∧ Forall (λ d, ∃ k, (tick ≤ k < tick')%nat
                        ∧ d ≤ clock k - RateLimiter.time_window self) stale.

(** No deque is longer than the limit. *)
Definition bounded (self : RateLimiter.t) : Prop :=
  ∀ client_id,
    Z.of_nat (length (deque_of client_id self))
    ≤ Z.max (RateLimiter.max_requests self) 0.

(** The instants admitted so far for the client end with the stored deque;
    those before it stay stale at every later reading; and no interval
    shorter than the window holds more than [max_requests] of them. *)
Definition admission_invariant (clock : nat → Z) (client_id : string)
    (seen : list Z) (w : nat * RateLimiter.t) : Prop :=
  (∃ gone,
     seen = gone ++ deque_of client_id w.2
     ∧ Forall (λ d, ∀ k, (w.1 ≤ k)%nat
                         → d ≤ clock k - RateLimiter.time_window w.2) gone)
  ∧ ∀ a b, b - a < RateLimiter.time_window w.2 →
           Z.of_nat (length (filter (λ t, a ≤ t ≤ b) seen))
           ≤ RateLimiter.max_requests w.2.

(** Every deque is in arrival order and holds no instant after a reading
    still to come. *)
Definition arrival_ordered (clock : nat → Z) (w : nat * RateLimiter.t) : Prop :=
  ∀ client_id,
    StronglySorted Z.le (deque_of client_id w.2)
    ∧ Forall (λ t, ∀ k, (w.1 ≤ k)%nat → t ≤ clock k) (deque_of client_id w.2).

(** The limiters after the first statements of [allow_request] and
    [get_client_status] of the tiered limiter: the tier ['default'] is added
    when the resolved tier name is not registered. *)
Definition with_default_tier (tier_name : string)
    (self : AdvancedRateLimiter.t) : gmap string RateLimiter.t :=
  if decide (AdvancedRateLimiter.limiters self !! tier_name = None)
  then <["default" := RateLimiter.Build 60 60 ∅]>
         (AdvancedRateLimiter.limiters self)
  else AdvancedRateLimiter.limiters self.

(** The tier name [allow_request] and [get_client_status] of the tiered
    limiter resolve for a client, and the limiter they then call: the one
    registered under that name, or the new 60/60 limiter. *)
Definition tier_of (client_id : string) (self : AdvancedRateLimiter.t)
  : string :=
  default "default" (AdvancedRateLimiter.client_tiers self !! client_id).

Definition limiter_for (client_id : string) (self : AdvancedRateLimiter.t)
  : RateLimiter.t :=
  default (RateLimiter.Build 60 60 ∅)
          (AdvancedRateLimiter.limiters self !! tier_of client_id self).

(** Every assigned tier name is registered. *)
Definition tiers_resolved (self : AdvancedRateLimiter.t) : Prop :=
  map_Forall (λ _ tier_name,
                is_Some (AdvancedRateLimiter.limiters self !! tier_name))
             (AdvancedRateLimiter.client_tiers self).

(** ** Histories of calls on a tiered limiter *)

Inductive tier_call : Type :=
  | AddTier (tier_name : string) (max_requests time_window : Z)
  | SetClientTier (client_id tier_name : string)
  | TierAllowRequest (client_id : string)
  | TierGetClientStatus (client_id : string).

(** The tier names with which a call invokes [add_tier]: its own argument
    for [add_tier] itself, and ['default'] for the two methods that create
    the default tier when the resolved tier name is not registered. *)
Definition add_tier_names (c : tier_call) (self : AdvancedRateLimiter.t)
  : list string :=
  let unresolved client_id :=
    AdvancedRateLimiter.limiters self
      !! default "default" (AdvancedRateLimiter.client_tiers self !! client_id)
    = None in
  match c with
  | AddTier tier_name _ _ => [tier_name]
  | SetClientTier _ _ => []
  | TierAllowRequest client_id | TierGetClientStatus client_id =>
      if decide (unresolved client_id) then ["default"] else []
  end.

(** One call at the instant [now]; the object is left behind whether the
    call returns or raises. *)
Definition tier_step (now : Z) (c : tier_call) (self : AdvancedRateLimiter.t)
  : AdvancedRateLimiter.t :=
  match c with
  | AddTier tier_name max_requests time_window =>
      (AdvancedRateLimiter.add_tier tier_name max_requests time_window self).2
  | SetClientTier client_id tier_name =>
      (AdvancedRateLimiter.set_client_tier client_id tier_name self).2
  | TierAllowRequest client_id =>
      (AdvancedRateLimiter.allow_request now client_id self).2
  | TierGetClientStatus client_id =>
      (AdvancedRateLimiter.get_client_status now client_id self).2
  end.

(** A history of calls with their instants: the tier names registered
    through [add_tier] along the way, and the final object. *)
Fixpoint tier_run (calls : list (Z * tier_call)) (self : AdvancedRateLimiter.t)
  : list string * AdvancedRateLimiter.t :=
  match calls with
  | [] => ([], self)
  | (now, c) :: calls =>
      let '(names, self') := tier_run calls (tier_step now c self) in
      (add_tier_names c self ++ names, self')
  end.



(** ** class RateLimitMiddleware (main.py)

    The middleware owns one [RateLimiter].  A request carries the client
    address, which Starlette leaves out when it is unknown, and whatever
    else the downstream handler reads.  [call_next] is the downstream
    handler: it returns a response or raises. *)

Module RateLimitMiddleware.

Record address : Type := Address {
  host : string;
  port : Z
}.

Record request (P : Type) : Type := Request {
  client : option address;
  payload : P
}.
Arguments Request {P} client payload.
Arguments client {P} r.
Arguments payload {P} r.

(** What [dispatch] raises: its own [HTTPException], the [AttributeError]
    of [request.client.host] on a request without client address, or what
    [call_next] raised. *)
Inductive raised (E : Type) : Type :=
  | HTTPException (status_code : Z) (detail : string)
  | AttributeError (msg : string)
  | Propagated (e : E).
Arguments HTTPException {E} status_code detail.
Arguments AttributeError {E} msg.
Arguments Propagated {E} e.

Record t : Type := Build {
  rate_limiter : RateLimiter.t
}.

(** [__init__], with the defaults [rate_limit_calls = 100] and
    [rate_limit_seconds = 60] supplied by the caller. *)
Definition init (rate_limit_calls rate_limit_seconds : Z) : outcome t :=
  match RateLimiter.init rate_limit_calls rate_limit_seconds with
  | Raised e => Raised e
  | Returned limiter => Returned {| rate_limiter := limiter |}
  end.

Definition HTTP_429_TOO_MANY_REQUESTS : Z := 429.

(** [dispatch], with [now] the clock reading taken by [allow_request]. *)
Definition dispatch {P R E} (now : Z) (rq : request P)
    (call_next : request P → E + R) (self : t) : (raised E + R) * t :=
  match client rq with
  | None =>
      (inl (AttributeError "'NoneType' object has no attribute 'host'"), self)
  | Some addr =>
      let client_ip := host addr in
      let '(allowed, limiter) :=
        RateLimiter.allow_request now client_ip (rate_limiter self) in
      let self := {| rate_limiter := limiter |} in
      if negb allowed then
        (inl (HTTPException HTTP_429_TOO_MANY_REQUESTS
                "Rate limit exceeded. Please try again later."), self)
      else
        match call_next rq with
        | inl e => (inl (Propagated e), self)
        | inr response => (inr response, self)
        end
  end.

End RateLimitMiddleware.

(** A stream of requests through the middleware.  The log keeps, for each
    request, the number of clock readings taken before it, the request and
    what [dispatch] returned or raised. *)
Fixpoint serve {P R E} (clock : nat → Z)
    (call_next : RateLimitMiddleware.request P → E + R)
    (requests : list (RateLimitMiddleware.request P))
    (w : nat * RateLimitMiddleware.t)
  : list (nat * RateLimitMiddleware.request P
          * (RateLimitMiddleware.raised E + R))
    * (nat * RateLimitMiddleware.t) :=
  match requests with
  | [] => ([], w)
  | rq :: requests =>
      let '(r, self) :=
        RateLimitMiddleware.dispatch (clock w.1) rq call_next w.2 in
      let tick :=
        match RateLimitMiddleware.client rq with
        | None => w.1
        | Some _ => S w.1
        end in
      let '(log, w') := serve clock call_next requests (tick, self) in
      ((w.1, rq, r) :: log, w')
  end.

(** The instants at which a request of the client host reached
    [call_next]. *)
Definition forwarded {P R E} (clock : nat → Z) (client_ip : string)
    (log : list (nat * RateLimitMiddleware.request P
                 * (RateLimitMiddleware.raised E + R))) : list Z :=
  flat_map (λ e,
              match RateLimitMiddleware.client e.1.2, e.2 with
              | Some addr, (inr _ | inl (RateLimitMiddleware.Propagated _)) =>
                  if decide (RateLimitMiddleware.host addr = client_ip)
                  then [clock e.1.1] else []
              | _, _ => []
              end) log.

(** The [allow_request] calls a stream of requests makes. *)
Definition limiter_calls {P} (requests : list (RateLimitMiddleware.request P))
  : list call :=
  omap (λ rq, (λ addr, AllowRequest (RateLimitMiddleware.host addr))
                <$> RateLimitMiddleware.client rq) requests.

(** ** Python strings

    A [str] is held as the bytes of its UTF-8 encoding.  [len] counts its
    code points, that is the bytes that are not continuation bytes
    [10xxxxxx]. *)

Definition continuation (a : Ascii.ascii) : bool :=
  match a with
  | Ascii.Ascii _ _ _ _ _ _ b6 b7 => b7 && negb b6
  end.

Fixpoint len (s : string) : nat :=
  match s with
  | EmptyString => 0%nat
  | String a s => if continuation a then len s else S (len s)
  end.

(** ** Pydantic schemas (app/models/schemas.py)

    A field typed [Dict[str, Any]] holds JSON-like values; numbers are
    integers or decimal literals [digits * 10^-scale]. *)

#[warnings="-register-all"] Inductive json : Type :=
  | JNull
  | JBool (b : bool)
  | JInt (n : Z)
  | JDec (digits : Z) (scale : nat)
  | JStr (s : string)
  | JList (l : list json)
  | JDict (d : list (string * json)).

(** What the construction of a response model can raise in the services:
    pydantic's [ValidationError] for [None] in a field typed [Dict], and the
    [TypeError] of [**None]. *)
Inductive cause : Type :=
  | ValidationError
  | TypeError.

(** [Exception(f"<msg>{str(e)}")], keeping the cause in place of its text. *)
Inductive failure : Type :=
  | Exception (msg : string) (e : cause).

Module ContentCreate.
Record t : Type := Build {
  title : string;
  content : string;
  content_type : string;
  metadata : option (gmap string json)
}.
End ContentCreate.

Module ContentResponse.
Record t : Type := Build {
  id : Z;
  title : string;
  content : string;
  content_type : string;
  metadata : gmap string json;
  created_at : Z;
  updated_at : option Z
}.

(** [ContentResponse(...)]: [metadata] must be a dictionary. *)
Definition new (id : Z) (title content content_type : string)
    (metadata : option (gmap string json)) (created_at : Z)
    (updated_at : option Z) : cause + t :=
  match metadata with
  | None => inl ValidationError
  | Some metadata =>
      inr (Build id title content content_type metadata created_at updated_at)
  end.
End ContentResponse.

Module AgentCreate.
Record t : Type := Build {
  name : string;
  role : string;
  description : string;
  capabilities : list string;
  config : option (gmap string json)
}.
End AgentCreate.

Module AgentResponse.
Record t : Type := Build {
  id : Z;
  name : string;
  role : string;
  description : string;
  capabilities : list string;
  config : gmap string json;
  status : string;
  created_at : Z
}.

(** [AgentResponse(...)]: [config] must be a dictionary. *)
Definition new (id : Z) (name role description : string)
    (capabilities : list string) (config : option (gmap string json))
    (status : string) (created_at : Z) : cause + t :=
  match config with
  | None => inl ValidationError
  | Some config =>
      inr (Build id name role description capabilities config status created_at)
  end.

Definition with_status (agent : t) (status : string) : t :=
  Build (id agent) (name agent) (role agent) (description agent)
        (capabilities agent) (config agent) status (created_at agent).
End AgentResponse.

(** ** class ContentService (app/services/content_service.py)

    The service keeps its items in a list and hands out identifiers from a
    counter.  [datetime.utcnow()] is the argument [now].  The crew of
    language-model agents is outside the program: [crew] gives, for a
    request made at an instant, the text it produced together with the
    formatted duration, or nothing when any step of it raised. *)

Module ContentService.

Record t : Type := Build {
  _content_store : list ContentResponse.t;
  _next_id : Z
}.

(** [__init__], once the language-model client is built. *)
Definition init : t := {| _content_store := []; _next_id := 1 |}.

(** The dictionary returned by [_generate_with_agents]. *)
Record generated : Type := Generated {
  content : string;
  agents_used : list string;
  generation_time : string;
  research_completed : bool;
  quality_score : string
}.

Definition _generate_with_agents
    (crew : Z → ContentCreate.t → option (string * string))
    (now : Z) (content_data : ContentCreate.t) : generated :=
  match crew now content_data with
  | Some (result, seconds) =>
      {| content := result;
         agents_used :=
           ["Content Research Specialist"; "Professional Content Writer"];
         generation_time := seconds +:+ " seconds";
         research_completed := true;
         quality_score := "A+" |}
  | None =>
      {| content := 
"# " +:+ ContentCreate.title content_data +:+ "

This is a sample content piece about " +:+ ContentCreate.title content_data +:+ ". In a production environment, 
this would be generated by our multi-agent AI system using advanced research and 
writing capabilities.

## Key Points

- Professional content generation using AI agents
- Multi-step workflow with research and writing phases  
- Quality assurance and optimization processes
- Scalable and customizable content creation

## Conclusion

The Intelligent Content Factory demonstrates the power of multi-agent AI systems 
for creating high-quality, professional content at scale.

*Generated by Intelligent Content Factory v1.0.0*";
         agents_used := ["Fallback Generator"];
         generation_time := "0.1 seconds";
         research_completed := false;
         quality_score := "B+ (Fallback Mode)" |}
  end.

Definition store (self : t) (content_response : ContentResponse.t) : t :=
  {| _content_store := _content_store self ++ [content_response];
     _next_id := _next_id self + 1 |}.

Definition create_content
    (crew : Z → ContentCreate.t → option (string * string))
    (now : Z) (content_data : ContentCreate.t) (self : t)
  : (failure + ContentResponse.t) * t :=
  if decide (100 < len (ContentCreate.content content_data))%nat then
    match ContentResponse.new (_next_id self)
            (ContentCreate.title content_data)
            (ContentCreate.content content_data)
            (ContentCreate.content_type content_data)
            (ContentCreate.metadata content_data) now None with
    | inl e => (inl (Exception "Content creation failed: " e), self)
    | inr content_response => (inr content_response, store self content_response)
    end
  else
    let generated_content := _generate_with_agents crew now content_data in
    match ContentCreate.metadata content_data with
    | None => (inl (Exception "Content creation failed: " TypeError), self)
    | Some metadata =>
        let metadata :=
          <["generation_time" := JStr (generation_time generated_content)]>
            (<["agents_used" := JList (JStr <$> agents_used generated_content)]>
               (<["generation_method" := JStr "multi_agent"]> metadata)) in
        match ContentResponse.new (_next_id self)
                (ContentCreate.title content_data)
                (content generated_content)
                (ContentCreate.content_type content_data)
                (Some metadata) now None with
        | inl e => (inl (Exception "Content creation failed: " e), self)
        | inr content_response =>
            (inr content_response, store self content_response)
        end
    end.

Definition get_content (content_id : Z) (self : t) : option ContentResponse.t :=
  find (λ content, bool_decide (ContentResponse.id content = content_id))
       (_content_store self).

Definition get_all_content (self : t) : list ContentResponse.t :=
  _content_store self.

(** The loop of [delete_content]: delete the first item with the identifier
    and stop. *)
Fixpoint delete_first (content_id : Z) (items : list ContentResponse.t)
  : option (list ContentResponse.t) :=
  match items with
  | [] => None
  | content :: items =>
      if decide (ContentResponse.id content = content_id) then Some items
      else cons content <$> delete_first content_id items
  end.

Definition delete_content (content_id : Z) (self : t) : bool * t :=
  match delete_first content_id (_content_store self) with
  | Some items =>
      (true, {| _content_store := items; _next_id := _next_id self |})
  | None => (false, self)
  end.

(** The keys of [updates] that [update_content] reads. *)
Record updates : Type := Updates {
  new_title : option string;
  new_content : option string;
  new_metadata : option (gmap string json)
}.

Definition apply_updates (now : Z) (u : updates) (content : ContentResponse.t)
  : ContentResponse.t :=
  ContentResponse.Build
    (ContentResponse.id content)
    (default (ContentResponse.title content) (new_title u))
    (default (ContentResponse.content content) (new_content u))
    (ContentResponse.content_type content)
    (match new_metadata u with
     | Some metadata => metadata ∪ ContentResponse.metadata content
     | None => ContentResponse.metadata content
     end)
    (ContentResponse.created_at content)
    (Some now).

(** The loop of [update_content]: change the first item with the identifier
    in place and return it. *)
Fixpoint update_first (now : Z) (content_id : Z) (u : updates)
    (items : list ContentResponse.t)
  : option (ContentResponse.t * list ContentResponse.t) :=
  match items with
  | [] => None
  | content :: items =>
      if decide (ContentResponse.id content = content_id) then
        let content := apply_updates now u content in
        Some (content, content :: items)
      else
        (λ '(found, items), (found, content :: items))
          <$> update_first now content_id u items
  end.

Definition update_content (now : Z) (content_id : Z) (u : updates) (self : t)
  : option ContentResponse.t * t :=
  match update_first now content_id u (_content_store self) with
  | Some (content, items) =>
      (Some content, {| _content_store := items; _next_id := _next_id self |})
  | None => (None, self)
  end.

End ContentService.

(** Histories of calls on a content service, each with its instant. *)
Inductive content_call : Type :=
  | CreateContent (content_data : ContentCreate.t)
  | GetContent (content_id : Z)
  | GetAllContent
  | DeleteContent (content_id : Z)
  | UpdateContent (content_id : Z) (u : ContentService.updates).

Definition content_step (crew : Z → ContentCreate.t → option (string * string))
    (now : Z) (c : content_call) (self : ContentService.t) : ContentService.t :=
  match c with
  | CreateContent content_data =>
      (ContentService.create_content crew now content_data self).2
  | GetContent _ | GetAllContent => self
  | DeleteContent content_id => (ContentService.delete_content content_id self).2
  | UpdateContent content_id u =>
      (ContentService.update_content now content_id u self).2
  end.

Definition content_run (crew : Z → ContentCreate.t → option (string * string))
    (calls : list (Z * content_call)) (self : ContentService.t)
  : ContentService.t :=
  foldl (λ self '(now, c), content_step crew now c self) self calls.

(** ** class AgentService (app/services/agent_service.py)

    The registry of agents: a list and a counter, filled at construction
    with three default agents.  [clock] and [tick] give the readings of
    [datetime.utcnow()], one per default agent. *)

Module AgentService.

Record t : Type := Build {
  _agent_store : list AgentResponse.t;
  _next_id : Z
}.

Definition default_agents : list AgentCreate.t :=
  [ AgentCreate.Build
      "Content Research Specialist" "researcher"
      "Expert at researching topics and gathering comprehensive information"
      ["research"; "analysis"; "fact-checking"; "trend-analysis"]
      (Some {[ "max_research_time" := JInt 300; "sources_limit" := JInt 10 ]});
    AgentCreate.Build
      "Professional Content Writer" "writer"
      "Skilled writer who creates engaging and informative content"
      ["writing"; "editing"; "seo-optimization"; "tone-adaptation"]
      (Some {[ "max_content_length" := JInt 2000;
               "style" := JStr "professional" ]});
    AgentCreate.Build
      "Quality Assurance Reviewer" "reviewer"
      "Reviews and improves content quality and accuracy"
      ["review"; "editing"; "quality-control"; "fact-verification"]
      (Some {[ "quality_threshold" := JDec 85 2;
               "review_criteria" :=
                 JList [JStr "accuracy"; JStr "readability";
                        JStr "engagement"] ]}) ].

Definition register (self : t) (agent_response : AgentResponse.t) : t :=
  {| _agent_store := _agent_store self ++ [agent_response];
     _next_id := _next_id self + 1 |}.

(** The loop of [_initialize_default_agents]; an exception of a response
    construction would leave the loop. *)
Definition _initialize_default_agents (clock : nat → Z) (tick : nat) (self : t)
  : cause + nat * t :=
  foldl (λ (acc : cause + nat * t) agent_data,
           match acc with
           | inl e => inl e
           | inr (tick, self) =>
               match AgentResponse.new (_next_id self)
                       (AgentCreate.name agent_data)
                       (AgentCreate.role agent_data)
                       (AgentCreate.description agent_data)
                       (AgentCreate.capabilities agent_data)
                       (AgentCreate.config agent_data)
                       "active" (clock tick) with
               | inl e => inl e
               | inr agent_response =>
                   inr (S tick, register self agent_response)
               end
           end)
        (inr (tick, self)) default_agents.

(** [__init__], once the language-model client is built. *)
Definition init (clock : nat → Z) (tick : nat) : cause + nat * t :=
  _initialize_default_agents clock tick {| _agent_store := []; _next_id := 1 |}.

Definition create_agent (now : Z) (agent_data : AgentCreate.t) (self : t)
  : (failure + AgentResponse.t) * t :=
  match AgentResponse.new (_next_id self)
          (AgentCreate.name agent_data)
          (AgentCreate.role agent_data)
          (AgentCreate.description agent_data)
          (AgentCreate.capabilities agent_data)
          (AgentCreate.config agent_data)
          "active" now with
  | inl e => (inl (Exception "Agent creation failed: " e), self)
  | inr agent_response => (inr agent_response, register self agent_response)
  end.

Definition get_agent (agent_id : Z) (self : t) : option AgentResponse.t :=
  find (λ agent, bool_decide (AgentResponse.id agent = agent_id))
       (_agent_store self).

Definition get_all_agents (self : t) : list AgentResponse.t :=
  _agent_store self.

Definition get_agents_by_role (role : string) (self : t)
  : list AgentResponse.t :=
  filter (λ agent, AgentResponse.role agent = role) (_agent_store self).

(** The loop of [update_agent_status]: set the status of the first agent
    with the identifier and stop. *)
Fixpoint set_status_first (agent_id : Z) (status : string)
    (agents : list AgentResponse.t) : option (list AgentResponse.t) :=
  match agents with
  | [] => None
  | agent :: agents =>
      if decide (AgentResponse.id agent = agent_id) then
        Some (AgentResponse.with_status agent status :: agents)
      else cons agent <$> set_status_first agent_id status agents
  end.

Definition update_agent_status (agent_id : Z) (status : string) (self : t)
  : bool * t :=
  match set_status_first agent_id status (_agent_store self) with
  | Some agents =>
      (true, {| _agent_store := agents; _next_id := _next_id self |})
  | None => (false, self)
  end.

(** The dictionary returned by [get_agent_statistics].  The list made from
    a set has no order of its own; here it is the order of [elements]. *)
Record statistics : Type := Statistics {
  total_agents : nat;
  active_agents : nat;
  inactive_agents : Z;
  agents_by_role : gmap string nat;
  capabilities : list string
}.

Definition get_agent_statistics (self : t) : statistics :=
  let total_agents := length (_agent_store self) in
  let active_agents :=
    length (filter (λ a, AgentResponse.status a = "active") (_agent_store self)) in
  let role_counts :=
    foldl (λ (role_counts : gmap string nat) agent,
             <[AgentResponse.role agent
               := (default 0 (role_counts !! AgentResponse.role agent) + 1)%nat]>
               role_counts)
          ∅ (_agent_store self) in
  {| total_agents := total_agents;
     active_agents := active_agents;
     inactive_agents := Z.of_nat total_agents - Z.of_nat active_agents;
     agents_by_role := role_counts;
     capabilities :=
       elements (list_to_set
                   (agent ← _agent_store self; AgentResponse.capabilities agent)
                 : gset string) |}.

End AgentService.

(** Histories of calls on an agent service, each with its instant. *)
Inductive agent_call : Type :=
  | CreateAgent (agent_data : AgentCreate.t)
  | GetAgent (agent_id : Z)
  | GetAllAgents
  | GetAgentsByRole (role : string)
  | UpdateAgentStatus (agent_id : Z) (status : string)
  | GetAgentStatistics.

Definition agent_step (now : Z) (c : agent_call) (self : AgentService.t)
  : AgentService.t :=
  match c with
  | CreateAgent agent_data => (AgentService.create_agent now agent_data self).2
  | UpdateAgentStatus agent_id status =>
      (AgentService.update_agent_status agent_id status self).2
  | GetAgent _ | GetAllAgents | GetAgentsByRole _ | GetAgentStatistics => self
  end.

Definition agent_run (calls : list (Z * agent_call)) (self : AgentService.t)
  : AgentService.t :=
  foldl (λ self '(now, c), agent_step now c self) self calls.

(** The identifiers in the content store increase strictly and lie below
    the counter. *)
Definition content_ids_fresh (self : ContentService.t) : Prop :=
  StronglySorted Z.lt
    (ContentResponse.id <$> ContentService._content_store self)
  ∧ Forall (λ i, 1 ≤ i < ContentService._next_id self)
           (ContentResponse.id <$> ContentService._content_store self)
  ∧ 1 ≤ ContentService._next_id self.

(** The response [create_content] builds when the metadata is a dictionary:
    the given content when it is longer than 100 characters, the generated
    one with three more metadata keys otherwise. *)
Definition created (crew : Z → ContentCreate.t → option (string * string))
    (now : Z) (content_data : ContentCreate.t)
    (metadata : gmap string json) (self : ContentService.t)
  : ContentResponse.t :=
  let long :=
    bool_decide (100 < len (ContentCreate.content content_data))%nat in
  let generated_content :=
    ContentService._generate_with_agents crew now content_data in
  ContentResponse.Build
    (ContentService._next_id self)
    (ContentCreate.title content_data)
    (if long then ContentCreate.content content_data
     else ContentService.content generated_content)
    (ContentCreate.content_type content_data)
    (if long then metadata
     else <["generation_time"
            := JStr (ContentService.generation_time generated_content)]>
            (<["agents_used"
               := JList (JStr <$> ContentService.agents_used generated_content)]>
               (<["generation_method" := JStr "multi_agent"]> metadata)))
    now None.

(** The identifiers in the registry are 1, 2, ... in order, the counter is
    one more than the number of agents, and the registry starts with the
    three default agents, whatever their status. *)
Definition agent_ids_dense (self : AgentService.t) : Prop :=
  AgentResponse.id <$> AgentService._agent_store self
  = seqZ 1 (Z.of_nat (length (AgentService._agent_store self)))
  ∧ AgentService._next_id self
    = Z.of_nat (length (AgentService._agent_store self)) + 1
  ∧ AgentResponse.role <$> take 3 (AgentService._agent_store self)
    = ["researcher"; "writer"; "reviewer"].

(** * Properties *)

(** ** Filters that keep everything or nothing *)

Section Filter.
Context {A : Type} (P : A → Prop) `{!∀ x, Decision (P x)}.

Lemma filter_keep_all (l : list A) : Forall P l → filter P l = l.
Proof.
  induction 1 as [|x l Hx _ IH]; [done|].
  by rewrite filter_cons_True, IH.
Qed.

Lemma filter_keep_none (l : list A) : Forall (λ x, ¬ P x) l → filter P l = [].
Proof.
  induction 1 as [|x l Hx _ IH]; [done|].
  by rewrite filter_cons_False.
Qed.
End Filter.

(** ** The trimming loop *)

Section Expire.
Implicit Types (cutoff : Z) (q : list Z).

(** What the loop pops is a prefix of stale instants. *)
Lemma expire_split cutoff q :
  ∃ stale, q = stale ++ expire cutoff q ∧ Forall (λ t, t ≤ cutoff) stale.
Proof.
  induction q as [|t q [stale [Hq Hstale]]]; simpl.
  - by exists [].
  - case_decide.
    + exists (t :: stale). split; [by rewrite Hq at 1 | by constructor].
    + by exists [].
Qed.

(** The loop stops at a live instant or at the empty deque. *)
Lemma expire_head cutoff q t : head (expire cutoff q) = Some t → cutoff < t.
Proof.
  induction q as [|t' q IH]; simpl; [done|].
  case_decide; [done|]. simpl. intros [= ->]. lia.
Qed.

Lemma expire_length cutoff q : (length (expire cutoff q) ≤ length q)%nat.
Proof.
  induction q as [|t q IH]; simpl; [done|]. case_decide; simpl; lia.
Qed.

Lemma expire_all_stale cutoff q :
  Forall (λ t, t ≤ cutoff) q → expire cutoff q = [].
Proof.
  induction 1 as [|t q Ht _ IH]; simpl; [done|]. by rewrite decide_True.
Qed.

Lemma expire_later cutoff cutoff' q :
  cutoff ≤ cutoff' → expire cutoff' (expire cutoff q) = expire cutoff' q.
Proof.
  intros Hle. induction q as [|t q IH]; simpl; [done|].
  case_decide; [|done]. rewrite IH. simpl. rewrite decide_True; [done | lia].
Qed.

Lemma expire_idemp cutoff q : expire cutoff (expire cutoff q) = expire cutoff q.
Proof. by apply expire_later. Qed.

(** On a deque in arrival order the loop removes exactly the stale
    instants. *)
Lemma expire_sorted cutoff q :
  StronglySorted Z.le q → expire cutoff q = filter (λ t, cutoff < t) q.
Proof.
  induction 1 as [|t q Hq IH Hall]; simpl; [done|].
  case_decide.
  - rewrite filter_cons_False by lia. done.
  - rewrite filter_cons_True by lia. f_equal.
    symmetry. apply filter_keep_all. eapply Forall_impl; [done|].
    simpl. lia.
Qed.

Lemma getitem_default_deque client_id (h : gmap string (list Z)) :
  (getitem_default client_id h).1 = default [] (h !! client_id).
Proof. unfold getitem_default. by destruct (h !! client_id). Qed.

(** Writing a deque back under the key hides whether the read created the
    key. *)
Lemma getitem_default_insert client_id (h : gmap string (list Z)) q :
  <[client_id := q]> (getitem_default client_id h).2 = <[client_id := q]> h.
Proof.
  unfold getitem_default. destruct (h !! client_id); simpl; [done|].
  by rewrite insert_insert_eq.
Qed.
End Expire.

(** ** Methods of [RateLimiter] *)

Section Methods.
Import RateLimiter.
Implicit Types (self : t) (now : Z) (c : string).

Lemma allow_request_unfold now c self :
  allow_request now c self =
    let kept := expire (now - time_window self) (deque_of c self) in
    if decide (max_requests self ≤ Z.of_nat (length kept)) then
      (false, with_history self (<[c := kept]> (request_history self)))
    else
      (true, with_history self (<[c := kept ++ [now]]> (request_history self))).
Proof.
  unfold allow_request, deque_of.
  pose proof (getitem_default_deque c (request_history self)) as Hq.
  pose proof (getitem_default_insert c (request_history self)) as Hins.
  destruct (getitem_default c (request_history self)) as [q h].
  simpl in *. subst q. rewrite Hins.
  case_decide; [done|]. by rewrite insert_insert_eq.
Qed.

Lemma get_client_status_unfold now c self :
  get_client_status now c self =
    let kept := expire (now - time_window self) (deque_of c self) in
    ({| client_id := c;
        requests_used := length kept;
        requests_remaining :=
          Z.max 0 (max_requests self - Z.of_nat (length kept));
        status_max_requests := max_requests self;
        status_time_window := time_window self;
        reset_time := (λ oldest, oldest + time_window self) <$> head kept;
        is_limited :=
          bool_decide (max_requests self ≤ Z.of_nat (length kept)) |},
     with_history self (<[c := kept]> (request_history self))).
Proof.
  unfold get_client_status, deque_of.
  pose proof (getitem_default_deque c (request_history self)) as Hq.
  pose proof (getitem_default_insert c (request_history self)) as Hins.
  destruct (getitem_default c (request_history self)) as [q h].
  simpl in *. subst q. rewrite Hins.
  by destruct (expire _ _).
Qed.

(** C2. [allow_request] pops from the head of the client's deque the
    instants [<= now - time_window] (a stale prefix, stopping at the first
    live instant); when at least [max_requests] instants remain it returns
    [False] and stores the trimmed deque without [now]; otherwise it
    appends [now] at the tail and returns [True].  A client that was not
    tracked starts from the empty deque, and is tracked afterwards whatever
    the answer. *)
Theorem allow_request_trims_then_decides now c self :
  let cutoff := now - time_window self in
  let prior := default [] (request_history self !! c) in
  let kept := expire cutoff prior in
  (∃ stale, prior = stale ++ kept ∧ Forall (λ t, t ≤ cutoff) stale)
  ∧ from_option (λ t, cutoff < t) True (head kept)
  ∧ allow_request now c self =
      (if decide (max_requests self ≤ Z.of_nat (length kept)) then
         (false, with_history self (<[c := kept]> (request_history self)))
       else
         (true,
          with_history self (<[c := kept ++ [now]]> (request_history self))))
  ∧ is_Some (request_history (allow_request now c self).2 !! c).
Proof.
  intros cutoff prior kept. split_and!.
  - apply expire_split.
  - destruct (head kept) as [t|] eqn:Hhead; simpl; [|done].
    by apply expire_head in Hhead.
  - apply allow_request_unfold.
  - rewrite allow_request_unfold. simpl. fold cutoff. fold prior. fold kept.
    case_decide; simpl; rewrite lookup_insert_eq; eauto.
Qed.

(** C6. [get_client_status] pops from the head of the client's deque the
    instants [<= now - time_window], stopping at the first later one, as
    [allow_request] does, and stores what is left under the client's key,
    also for a client that was not tracked; the other entries and the
    configuration stay as they were.  What [allow_request] stores at the
    same instant is the same deque, with [now] appended when it admits.
    The status reports the length of the stored deque, the quota left
    clamped at zero, the configured limit and window, the oldest stored
    instant plus the window (nothing for an empty deque), and whether the
    limit is reached. *)
Theorem get_client_status_trims_and_reports now c self :
  let cutoff := now - time_window self in
  let prior := default [] (request_history self !! c) in
  let st := (get_client_status now c self).1 in
  let self' := (get_client_status now c self).2 in
  ∃ stale kept,
    prior = stale ++ kept
    ∧ Forall (λ t, t ≤ cutoff) stale
    ∧ from_option (λ t, cutoff < t) True (head kept)
    ∧ kept = expire cutoff prior
    ∧ (∀ c', request_history self' !! c'
             = if decide (c' = c) then Some kept
               else request_history self !! c')
    ∧ max_requests self' = max_requests self
    ∧ time_window self' = time_window self
    ∧ self' = with_history self (<[c := kept]> (request_history self))
    ∧ request_history (allow_request now c self).2 !! c
      = Some (if decide (max_requests self ≤ Z.of_nat (length kept))
              then kept else kept ++ [now])
    ∧ self' = (if decide (max_requests self ≤ Z.of_nat (length kept))
               then (allow_request now c self).2
               else with_history self
                      (<[c := kept]>
                         (request_history (allow_request now c self).2)))
    ∧ client_id st = c
    ∧ requests_used st = length kept
    ∧ requests_remaining st
      = Z.max 0 (max_requests self - Z.of_nat (length kept))
    ∧ status_max_requests st = max_requests self
    ∧ status_time_window st = time_window self
    ∧ reset_time st = (λ oldest, oldest + time_window self) <$> head kept
    ∧ is_limited st
      = bool_decide (max_requests self ≤ Z.of_nat (length kept)).
Proof.
  intros cutoff prior st self'. subst st self'.
  destruct (expire_split cutoff prior) as [stale [Hsplit Hstale]].
  exists stale, (expire cutoff prior).
  rewrite get_client_status_unfold, allow_request_unfold. cbv zeta.
  unfold deque_of. fold prior. fold cutoff. cbn [fst snd].
  split_and!; try done.
  - destruct (head (expire cutoff prior)) as [t|] eqn:Hhead; simpl; [|done].
    by apply expire_head in Hhead.
  - intros c'. simpl. case_decide as Hc.
    + subst. by rewrite lookup_insert_eq.
    + by rewrite lookup_insert_ne.
  - case_decide; simpl; by rewrite lookup_insert_eq.
  - case_decide; simpl; [done|]. by rewrite insert_insert_eq.
Qed.

(** C3, as the code has it.  [RateLimiter(max_requests, time_window)]
    returns a limiter for every pair of integers, non-positive ones
    included: it stores both values as given, with an empty history, and
    raises nothing. *)
Theorem init_accepts_every_configuration (max_requests time_window : Z) :
  init max_requests time_window
  = Returned (Build max_requests time_window ∅).
Proof. reflexivity. Qed.

(** C3 fails at [RateLimiter(0, 60)]: the arguments are not both positive,
    and yet the constructor returns and raises no exception. *)
Lemma init_zero_max_requests_returns :
  (0 ≤ 0 ∨ 60 ≤ 0)
  ∧ ¬ (0 < 0 ∧ 0 < 60)
  ∧ init 0 60 = Returned (Build 0 60 ∅)
  ∧ ¬ ∃ e, init 0 60 = Raised e.
Proof.
  split_and!; [lia | lia | reflexivity |]. intros [e He]. discriminate He.
Qed.

Lemma reset_client_unfold c self :
  reset_client c self
  = (bool_decide (is_Some (request_history self !! c)),
     with_history self (delete c (request_history self))).
Proof.
  unfold reset_client. case_decide as Hc.
  - by rewrite bool_decide_eq_true_2.
  - rewrite bool_decide_eq_false_2 by done. f_equal.
    rewrite delete_id; [by destruct self|].
    by apply eq_None_not_Some.
Qed.

(** C7. [reset_client] answers whether the client was tracked, and leaves
    the limiter without any entry for the client, whatever the
    configuration; the other clients and the configuration are untouched.
    With a positive limit the next [allow_request] for the client, at any
    instant, is admitted, whatever the client's deque held before. *)
Theorem reset_client_forgets_client now c self :
  let answer := (reset_client c self).1 in
  let self' := (reset_client c self).2 in
  (answer = true ↔ is_Some (request_history self !! c))
  ∧ (answer = false ↔ request_history self !! c = None)
  ∧ request_history self' = delete c (request_history self)
  ∧ request_history self' !! c = None
  ∧ (∀ c', request_history self' !! c'
           = if decide (c' = c) then None else request_history self !! c')
  ∧ max_requests self' = max_requests self
  ∧ time_window self' = time_window self
  ∧ self' = with_history self (delete c (request_history self))
  ∧ (0 < max_requests self → (allow_request now c self').1 = true).
Proof.
  intros answer self'. subst answer self'.
  rewrite reset_client_unfold. simpl. split_and!.
  - apply bool_decide_eq_true.
  - rewrite bool_decide_eq_false. symmetry. apply eq_None_not_Some.
  - done.
  - apply lookup_delete_eq.
  - intros c'. case_decide as Hc.
    + subst. apply lookup_delete_eq.
    + by apply lookup_delete_ne.
  - done.
  - done.
  - done.
  - intros Hmax. rewrite allow_request_unfold. unfold deque_of. simpl.
    rewrite lookup_delete_eq. simpl. rewrite decide_False; [done | lia].
Qed.

Lemma reset_client_forgets_client_witness :
  let self := Build 1 10 {[ "10.0.0.1" := [5] ]} in
  let closed := Build 0 10 {[ "10.0.0.1" := [5] ]} in
  0 < max_requests self
  ∧ (allow_request 6 "10.0.0.1" self).1 = false
  ∧ (reset_client "10.0.0.1" self).1 = true
  ∧ (allow_request 6 "10.0.0.1" (reset_client "10.0.0.1" self).2).1 = true
  ∧ (reset_client "10.0.0.1" closed).1 = true
  ∧ request_history (reset_client "10.0.0.1" closed).2 = ∅.
Proof.
  intros self closed.
  pose proof (reset_client_forgets_client 6 "10.0.0.1" self)
    as (Htracked & _ & _ & _ & _ & _ & _ & _ & Hadmitted).
  pose proof (reset_client_forgets_client 6 "10.0.0.1" closed)
    as (Htracked' & _ & Hgone & _).
  split_and!; [simpl; lia | reflexivity | | apply Hadmitted; simpl; lia | |].
  - apply Htracked. by eexists.
  - apply Htracked'. by eexists.
  - rewrite Hgone. reflexivity.
Defined.
End Methods.

(** ** The sweeps over all clients *)

Section Sweeps.
Import RateLimiter.
Implicit Types (self : t) (now cutoff : Z) (c : string)
  (h : gmap string (list Z)) (items : list (string * list Z)).

(** The first loop of the cleanup, split into its two results. *)
Lemma cleanup_scan_foldl cutoff items h removed :
  foldl (λ '(history, clients_to_remove) '(client_id, requests),
           let requests := expire cutoff requests in
           (<[client_id := requests]> history,
            match requests with
            | [] => clients_to_remove ++ [client_id]
            | _ => clients_to_remove
            end))
        (h, removed) items
  = (foldl (λ history '(client_id, requests),
              <[client_id := expire cutoff requests]> history) h items,
     removed ++ (filter (λ kv, expire cutoff kv.2 = []) items).*1).
Proof.
  revert h removed. induction items as [|[c q] items IH]; intros h removed.
  - simpl. by rewrite app_nil_r.
  - simpl. rewrite IH. f_equal.
    destruct (expire cutoff q) eqn:Hq.
    + rewrite filter_cons_True by done. simpl. by rewrite <-app_assoc.
    + rewrite filter_cons_False; [done|]. simpl. by rewrite Hq.
Qed.

Lemma trim_all_foldl cutoff items h :
  NoDup items.*1 →
  foldl (λ history '(client_id, requests),
           <[client_id := expire cutoff requests]> history) h items
  = (expire cutoff <$> list_to_map items) ∪ h.
Proof.
  revert h. induction items as [|[c q] items IH]; intros h Hnodup.
  - simpl. by rewrite fmap_empty, (left_id_L ∅ (∪)).
  - rewrite fmap_cons in Hnodup. apply NoDup_cons in Hnodup as [Hc Hnodup].
    simpl in *. rewrite IH by done. rewrite fmap_insert, <-insert_union_l.
    symmetry. apply insert_union_r. rewrite lookup_fmap.
    by rewrite (not_elem_of_list_to_map_1 _ _ Hc).
Qed.

Lemma cleanup_scan_spec cutoff h :
  cleanup_scan cutoff h
  = (expire cutoff <$> h,
     (filter (λ kv, expire cutoff kv.2 = []) (map_to_list h)).*1).
Proof.
  unfold cleanup_scan. rewrite cleanup_scan_foldl. f_equal.
  rewrite trim_all_foldl by apply NoDup_fst_map_to_list.
  rewrite list_to_map_to_list. apply map_eq. intros c.
  rewrite lookup_union, !lookup_fmap. by destruct (h !! c).
Qed.

(** The second loop of the cleanup. *)
Lemma lookup_foldl_delete h (removed : list string) c :
  foldl (λ history client_id, delete client_id history) h removed !! c
  = if decide (c ∈ removed) then None else h !! c.
Proof.
  revert h. induction removed as [|c' removed IH]; intros h; cbn [foldl].
  - case_decide as Hin; [by apply elem_of_nil in Hin | done].
  - rewrite IH. destruct (decide (c ∈ removed)) as [Hin|Hnin].
    + case_decide as Hin'; [done|]. destruct Hin'. by right.
    + destruct (decide (c = c')) as [->|Hne].
      * rewrite lookup_delete_eq. case_decide as Hin'; [done|].
        destruct Hin'. by left.
      * rewrite lookup_delete_ne by done. case_decide as Hin'; [|done].
        by apply elem_of_cons in Hin' as [?|?].
Qed.

Lemma cleanup_old_entries_history now self :
  request_history (cleanup_old_entries now self)
  = filter (λ kv, kv.2 ≠ [])
           (expire (now - time_window self) <$> request_history self).
Proof.
  unfold cleanup_old_entries. rewrite cleanup_scan_spec. simpl.
  set (cutoff := now - time_window self). set (h := request_history self).
  apply map_eq. intros c.
  rewrite lookup_foldl_delete, map_lookup_filter, lookup_fmap.
  destruct (h !! c) as [q|] eqn:Hc; simpl.
  - destruct (decide (expire cutoff q = [])) as [Hq|Hq].
    + rewrite decide_True.
      * by rewrite option_guard_False by (simpl; intuition congruence).
      * apply list_elem_of_fmap. exists (c, q). split; [done|].
        apply list_elem_of_filter. split; [done|].
        by apply elem_of_map_to_list.
    + rewrite decide_False.
      * by rewrite option_guard_True.
      * intros ([c' q'] & -> & [Hq' Hin%elem_of_map_to_list]%list_elem_of_filter)
          %list_elem_of_fmap.
        simpl in *. congruence.
  - by case_decide.
Qed.

(** The two loops of [get_stats]. *)
Lemma total_requests_foldl items (acc : nat) :
  foldl (λ acc '(_, requests), (acc + length requests)%nat) acc items
  = (acc + sum_list_with (λ kv, length kv.2) items)%nat.
Proof.
  revert acc. induction items as [|[c q] items IH]; intros acc; simpl.
  - lia.
  - rewrite IH. lia.
Qed.

Lemma active_limited_foldl now self items (active limited : nat) :
  let recent (q : list Z) := filter (λ r, now - time_window self < r) q in
  foldl (λ '(active, limited) '(_, requests),
           let recent_requests :=
             filter (λ r, now - time_window self < r) requests in
           match recent_requests with
           | [] => (active, limited)
           | _ =>
               (S active,
                if decide (max_requests self
                           ≤ Z.of_nat (length recent_requests))
                then S limited else limited)
           end)
        (active, limited) items
  = (active + length (filter (λ kv, recent kv.2 ≠ []) items),
     limited
     + length (filter (λ kv, recent kv.2 ≠ []
                             ∧ (max_requests self
                                ≤ Z.of_nat (length (recent kv.2)))%Z) items))%nat.
Proof.
  intros recent. revert active limited.
  induction items as [|[c q] items IH]; intros active limited.
  - simpl. f_equal; lia.
  - cbn [foldl]. fold (recent q).
    destruct (recent q) as [|r rs] eqn:Hq.
    + rewrite IH, !filter_cons_False by (simpl; rewrite Hq; intuition congruence).
      done.
    + rewrite IH. rewrite (filter_cons_True _ (c, q)) by (simpl; by rewrite Hq).
      case_decide as Hmax.
      * rewrite filter_cons_True by (simpl; by rewrite Hq).
        simpl. f_equal; lia.
      * rewrite (filter_cons_False _ (c, q))
          by (simpl; rewrite Hq; intuition congruence).
        simpl. f_equal; lia.
Qed.

Lemma size_map_filter {V} (P : string * V → Prop) `{!∀ kv, Decision (P kv)}
    (m : gmap string V) :
  size (filter P m) = length (filter P (map_to_list m)).
Proof.
  rewrite map_filter_alt, map_size_list_to_map; [done|].
  apply NoDup_fmap_fst.
  - intros k x y [_ Hx%elem_of_map_to_list]%list_elem_of_filter
      [_ Hy%elem_of_map_to_list]%list_elem_of_filter. congruence.
  - apply NoDup_filter, NoDup_map_to_list.
Qed.

Lemma get_stats_unfold now self :
  let recent (q : list Z) := filter (λ r, now - time_window self < r) q in
  get_stats now self
  = ({| total_clients := size (request_history self);
        active_clients :=
          size (filter (λ kv, recent kv.2 ≠ []) (request_history self));
        limited_clients :=
          size (filter (λ kv, recent kv.2 ≠ []
                              ∧ max_requests self
                                ≤ Z.of_nat (length (recent kv.2)))
                       (request_history self));
        total_requests_tracked :=
          sum_list_with (λ kv, length kv.2)
                        (map_to_list (request_history self));
        max_requests_per_window := max_requests self;
        time_window_seconds := time_window self |},
     self).
Proof.
  intros recent. unfold get_stats.
  rewrite total_requests_foldl, active_limited_foldl.
  fold recent. by rewrite !size_map_filter.
Qed.

Lemma cleanup_old_entries_config now self :
  max_requests (cleanup_old_entries now self) = max_requests self
  ∧ time_window (cleanup_old_entries now self) = time_window self.
Proof.
  unfold cleanup_old_entries. by destruct (cleanup_scan _ _).
Qed.

(** C8. [cleanup_old_entries] pops from the head of every tracked deque
    the instants [<= now - time_window], stopping at the first later one,
    keeps every client whose deque has an instant left, with that deque,
    and drops the clients whose deque is empty; it tracks no new client and
    keeps the configuration.  When [now] is more than [time_window] past
    every stored instant, nothing is tracked afterwards and [get_stats]
    reports [total_clients = 0]. *)
Theorem cleanup_old_entries_sweeps now self :
  let cutoff := now - time_window self in
  let self' := cleanup_old_entries now self in
  (∀ c,
     match request_history self !! c with
     | None => request_history self' !! c = None
     | Some q =>
         ∃ stale kept,
           q = stale ++ kept
           ∧ Forall (λ t, t ≤ cutoff) stale
           ∧ from_option (λ t, cutoff < t) True (head kept)
           ∧ request_history self' !! c
             = match kept with
               | [] => None
               | _ :: _ => Some kept
               end
     end)
  ∧ request_history self'
    = filter (λ kv, kv.2 ≠ []) (expire cutoff <$> request_history self)
  ∧ max_requests self' = max_requests self
  ∧ time_window self' = time_window self
  ∧ (map_Forall (λ _ q, Forall (λ t, t + time_window self < now) q)
                (request_history self) →
     request_history self' = ∅
     ∧ ∀ later, total_clients (get_stats later self').1 = 0%nat).
Proof.
  intros cutoff self'. subst self'.
  destruct (cleanup_old_entries_config now self) as [Hmax Hwin].
  split_and!; [| apply cleanup_old_entries_history | done | done |].
  - intros c. rewrite cleanup_old_entries_history.
    rewrite map_lookup_filter, lookup_fmap. fold cutoff.
    destruct (request_history self !! c) as [q|]; simpl; [|done].
    destruct (expire_split cutoff q) as [stale [Hsplit Hstale]].
    exists stale, (expire cutoff q). split_and!; [done | done | |].
    + destruct (head (expire cutoff q)) as [t|] eqn:Hhead; simpl; [|done].
      by apply expire_head in Hhead.
    + destruct (expire cutoff q) eqn:Hq.
      * by rewrite option_guard_False by (simpl; intuition congruence).
      * by rewrite option_guard_True.
  - intros Hold.
    assert (request_history (cleanup_old_entries now self) = ∅) as Hempty.
    { rewrite cleanup_old_entries_history. apply map_empty. intros c.
      apply map_lookup_filter_None. right. intros q Hq Hne. apply Hne.
      rewrite lookup_fmap in Hq.
      destruct (request_history self !! c) as [q0|] eqn:Hc; [|done].
      injection Hq as <-. simpl. apply expire_all_stale.
      eapply Forall_impl; [exact (Hold c q0 Hc)|]. simpl. lia. }
    split; [done|]. intros later.
    rewrite get_stats_unfold. simpl. rewrite Hempty. apply map_size_empty.
Qed.

Lemma cleanup_old_entries_sweeps_witness :
  let self := Build 2 10 {[ "10.0.0.1" := [1; 2]; "10.0.0.2" := [3] ]} in
  let live := Build 2 10 {[ "10.0.0.1" := [1]; "10.0.0.2" := [1; 5] ]} in
  map_Forall (λ _ q, Forall (λ t, t + time_window self < 20) q)
             (request_history self)
  ∧ (total_clients (get_stats 20 self).1 = 2%nat
     ∧ request_history (cleanup_old_entries 20 self) = ∅
     ∧ total_clients (get_stats 20 (cleanup_old_entries 20 self)).1 = 0%nat
     ∧ request_history (cleanup_old_entries 11 live) = {[ "10.0.0.2" := [5] ]}).
Proof.
  intros self live.
  assert (map_Forall (λ _ q, Forall (λ t, t + time_window self < 20) q)
                     (request_history self)) as Hold.
  { apply map_Forall_to_list. vm_compute. repeat constructor. }
  split; [exact Hold|].
  destruct (cleanup_old_entries_sweeps 20 self) as (_ & _ & _ & _ & Hconv).
  destruct (Hconv Hold) as [Hempty Hzero].
  split_and!; [reflexivity | exact Hempty | apply Hzero | reflexivity].
Defined.

(** Trimming never adds timestamps to the total. *)
Lemma total_requests_cleanup_le cutoff h :
  (sum_list_with (λ kv : string * list Z, length kv.2)
     (map_to_list (filter (λ kv : string * list Z, kv.2 ≠ [])
                          (expire cutoff <$> h)))
   ≤ sum_list_with (λ kv : string * list Z, length kv.2) (map_to_list h))%nat.
Proof.
  induction h as [|c q h Hc IH] using map_ind.
  - by rewrite fmap_empty, map_filter_empty, map_to_list_empty.
  - rewrite fmap_insert, map_filter_insert.
    rewrite (map_to_list_insert h) by done.
    pose proof (expire_length cutoff q) as Hlen.
    case_decide.
    + rewrite map_to_list_insert.
      * simpl in *. lia.
      * apply map_lookup_filter_None. left. by rewrite lookup_fmap, Hc.
    + rewrite delete_id by by rewrite lookup_fmap, Hc.
      simpl in *. lia.
Qed.

(** C9. [get_stats] returns the limiter as it received it.  Its
    [total_clients] is the number of keys and its
    [total_requests_tracked] the number of stored instants, stale ones
    included, so both are at least what they are after a cleanup at the
    same instant, and can be strictly larger; [active_clients] counts the
    clients with an instant strictly after [now - time_window], and
    [limited_clients] those among them with at least [max_requests] such
    instants. *)
Theorem get_stats_reads_without_trimming now self :
  let recent (q : list Z) := filter (λ r, now - time_window self < r) q in
  let st := (get_stats now self).1 in
  let swept := (get_stats now (cleanup_old_entries now self)).1 in
  (get_stats now self).2 = self
  ∧ total_clients st = size (request_history self)
  ∧ total_requests_tracked st
    = sum_list_with (λ kv, length kv.2) (map_to_list (request_history self))
  ∧ active_clients st
    = size (filter (λ kv, recent kv.2 ≠ []) (request_history self))
  ∧ limited_clients st
    = size (filter (λ kv, recent kv.2 ≠ []
                          ∧ max_requests self ≤ Z.of_nat (length (recent kv.2)))
                   (request_history self))
  ∧ (total_clients swept ≤ total_clients st)%nat
  ∧ (total_requests_tracked swept ≤ total_requests_tracked st)%nat
  ∧ ∃ now0 self0,
      let st0 := (get_stats now0 self0).1 in
      let swept0 := (get_stats now0 (cleanup_old_entries now0 self0)).1 in
      (total_clients swept0 < total_clients st0)%nat
      ∧ (total_requests_tracked swept0 < total_requests_tracked st0)%nat
      ∧ active_clients st0 = 0%nat.
Proof.
  intros recent st swept. subst st swept.
  rewrite !get_stats_unfold. simpl.
  rewrite cleanup_old_entries_history.
  split_and!; try done.
  - etrans; [apply map_size_filter|]. by rewrite map_size_fmap.
  - apply total_requests_cleanup_le.
  - exists 100, (Build 1 10 {[ "10.0.0.1" := [1] ]}). by vm_compute.
Qed.
End Sweeps.

(** ** The effect of one call on one client's deque *)

Section Effects.
Import RateLimiter.
Implicit Types (self : t) (now : Z) (c : string) (tick : nat).
Variable clock : nat → Z.

Lemma trimmed_refl c tick tick' self self' :
  deque_of c self' = deque_of c self → trimmed clock c tick self tick' self'.
Proof. intros Heq. exists []. by rewrite Heq. Qed.

Lemma trimmed_expire c tick self self' :
  deque_of c self'
  = expire (clock tick - time_window self) (deque_of c self) →
  trimmed clock c tick self (S tick) self'.
Proof.
  intros Heq.
  destruct (expire_split (clock tick - time_window self) (deque_of c self))
    as [stale [Hsplit Hstale]].
  exists stale. rewrite Heq. split; [done|].
  eapply Forall_impl; [done|]. simpl. intros d Hd. exists tick. split; [lia|done].
Qed.

Lemma trimmed_trans c tick1 self1 tick2 self2 tick3 self3 :
  (tick1 ≤ tick2 ≤ tick3)%nat →
  time_window self2 = time_window self1 →
  trimmed clock c tick1 self1 tick2 self2 →
  trimmed clock c tick2 self2 tick3 self3 →
  trimmed clock c tick1 self1 tick3 self3.
Proof.
  intros Hticks Hwin [stale1 [Hq1 Hs1]] [stale2 [Hq2 Hs2]].
  exists (stale1 ++ stale2). split.
  - by rewrite Hq1, Hq2, app_assoc.
  - apply Forall_app. split.
    + eapply Forall_impl; [done|]. simpl. intros d (k & Hk & Hd).
      exists k. split; [lia|done].
    + eapply Forall_impl; [done|]. simpl. intros d (k & Hk & Hd).
      exists k. rewrite <-Hwin. split; [lia|done].
Qed.

Lemma deque_of_insert c c' q self :
  deque_of c (with_history self (<[c' := q]> (request_history self)))
  = if decide (c = c') then q else deque_of c self.
Proof.
  unfold deque_of. simpl. case_decide as Hc.
  - subst. by rewrite lookup_insert_eq.
  - by rewrite lookup_insert_ne.
Qed.

Lemma deque_of_get_client_status now c c' self :
  deque_of c (get_client_status now c' self).2
  = if decide (c = c')
    then expire (now - time_window self) (deque_of c self)
    else deque_of c self.
Proof.
  rewrite get_client_status_unfold. simpl. rewrite deque_of_insert.
  by case_decide; subst.
Qed.

Lemma deque_of_cleanup_old_entries now c self :
  deque_of c (cleanup_old_entries now self)
  = expire (now - time_window self) (deque_of c self).
Proof.
  unfold deque_of. rewrite cleanup_old_entries_history.
  rewrite map_lookup_filter, lookup_fmap.
  destruct (request_history self !! c) as [q|]; simpl; [|done].
  destruct (expire _ q) eqn:Hq.
  - by rewrite option_guard_False by (simpl; intuition congruence).
  - by rewrite option_guard_True.
Qed.

Lemma deque_of_reset_client c c' self :
  deque_of c (reset_client c' self).2
  = if decide (c = c') then [] else deque_of c self.
Proof.
  rewrite reset_client_unfold. unfold deque_of. simpl. case_decide as Hc.
  - subst. by rewrite lookup_delete_eq.
  - by rewrite lookup_delete_ne.
Qed.

Lemma get_client_status_config now c self :
  max_requests (get_client_status now c self).2 = max_requests self
  ∧ time_window (get_client_status now c self).2 = time_window self.
Proof. by rewrite get_client_status_unfold. Qed.

Lemma allow_request_config now c self :
  max_requests (allow_request now c self).2 = max_requests self
  ∧ time_window (allow_request now c self).2 = time_window self.
Proof. rewrite allow_request_unfold. simpl. by case_decide. Qed.

Lemma get_all_clients_status_foldl c (keys : list string) out tick self :
  let '(_, tick', self') :=
    foldl (λ '(out, tick, self) client_id,
             let '(st, self) := get_client_status (clock tick) client_id self in
             (out ++ [st], S tick, self))
          (out, tick, self) keys in
  tick' = (tick + length keys)%nat
  ∧ max_requests self' = max_requests self
  ∧ time_window self' = time_window self
  ∧ trimmed clock c tick self tick' self'.
Proof.
  revert out tick self.
  induction keys as [|c' keys IH]; intros out tick self; cbn [foldl].
  - split_and!; [simpl; lia | done | done | by apply trimmed_refl].
  - destruct (get_client_status (clock tick) c' self) as [st self1] eqn:Hst.
    specialize (IH (out ++ [st]) (S tick) self1).
    destruct (foldl _ _ keys) as [[out' tick'] self'].
    destruct IH as (-> & Hmax & Hwin & Htrim).
    destruct (get_client_status_config (clock tick) c' self) as [Hmax1 Hwin1].
    rewrite Hst in Hmax1, Hwin1. simpl in Hmax1, Hwin1.
    split_and!; [simpl; lia | congruence | congruence |].
    eapply (trimmed_trans _ tick self (S tick) self1); [lia | done | | done].
    pose proof (deque_of_get_client_status (clock tick) c c' self) as Hq.
    rewrite Hst in Hq. simpl in Hq.
    case_decide; [by apply trimmed_expire | by apply trimmed_refl].
Qed.

(** Every call either admits a request of the client, appending the
    reading to the trimmed deque while it is below the limit, or forgets
    the client ([reset_client]), or at most trims the client's deque. *)
Lemma step_effect c cl tick self r tick' self' :
  step clock cl (tick, self) = (r, (tick', self')) →
  max_requests self' = max_requests self
  ∧ time_window self' = time_window self
  ∧ (tick ≤ tick')%nat
  ∧ ((admitted clock c [(tick, cl, r)] = [clock tick]
      ∧ (tick < tick')%nat
      ∧ ∃ stale kept,
          deque_of c self = stale ++ kept
          ∧ Forall (λ d, d ≤ clock tick - time_window self) stale
          ∧ Z.of_nat (length kept) < max_requests self
          ∧ deque_of c self' = kept ++ [clock tick])
     ∨ (admitted clock c [(tick, cl, r)] = []
        ∧ ((cl = ResetClient c ∧ deque_of c self' = [])
           ∨ (cl ≠ ResetClient c ∧ trimmed clock c tick self tick' self')))).
Proof.
  destruct cl as [c'|c'|keys|c'|  |]; simpl.
  - (* allow_request *)
    destruct (allow_request_config (clock tick) c' self) as [Hmax Hwin].
    pose proof (allow_request_unfold (clock tick) c' self) as Hallow.
    destruct (allow_request (clock tick) c' self) as [b self1].
    intros [= <- <- <-]. simpl in *.
    split_and!; [done | done | lia |].
    destruct (expire_split (clock tick - time_window self) (deque_of c' self))
      as [stale [Hsplit Hstale]].
    case_decide as Hfull; injection Hallow as -> ->.
    + right. split; [done|]. right. split; [done|].
      destruct (decide (c = c')) as [->|Hne].
      * apply trimmed_expire. rewrite deque_of_insert. by rewrite decide_True.
      * apply trimmed_refl. rewrite deque_of_insert. by rewrite decide_False.
    + destruct (decide (c' = c)) as [->|Hne].
      * left. split_and!; [done | lia |].
        exists stale, (expire (clock tick - time_window self) (deque_of c self)).
        split_and!; [done | done | lia |].
        rewrite deque_of_insert. by rewrite decide_True.
      * right. split; [done|]. right. split; [done|].
        apply trimmed_refl. rewrite deque_of_insert. by rewrite decide_False.
  - (* get_client_status *)
    destruct (get_client_status_config (clock tick) c' self) as [Hmax Hwin].
    pose proof (deque_of_get_client_status (clock tick) c c' self) as Hq.
    destruct (get_client_status (clock tick) c' self) as [st self1].
    intros [= <- <- <-]. simpl in *.
    split_and!; [done | done | lia |].
    right. split; [done|]. right. split; [done|].
    case_decide; [by apply trimmed_expire | by apply trimmed_refl].
  - (* get_all_clients_status *)
    case_decide as Hkeys.
    + unfold get_all_clients_status.
      pose proof (get_all_clients_status_foldl c keys [] tick self) as H.
      destruct (foldl _ _ _) as [[out tick1] self1].
      destruct H as (Htick & Hmax & Hwin & Htrim).
      intros [= <- <- <-].
      split_and!; [done | done | lia |].
      right. split; [done|]. by right.
    + intros [= <- <- <-].
      split_and!; [done | done | lia |].
      right. split; [done|]. right. split; [done|]. by apply trimmed_refl.
  - (* reset_client *)
    pose proof (deque_of_reset_client c c' self) as Hq.
    pose proof (reset_client_unfold c' self) as Hreset.
    destruct (reset_client c' self) as [b self1].
    injection Hreset as -> ->. intros [= <- <- <-]. simpl in *.
    split_and!; [done | done | lia |].
    right. split; [done|].
    case_decide as Hc.
    + subst. by left.
    + right. split; [congruence|]. by apply trimmed_refl.
  - (* cleanup_old_entries *)
    intros [= <- <- <-].
    destruct (cleanup_old_entries_config (clock tick) self) as [Hmax Hwin].
    split_and!; [done | done | lia |].
    right. split; [done|]. right. split; [done|].
    apply trimmed_expire, deque_of_cleanup_old_entries.
  - (* get_stats *)
    rewrite get_stats_unfold. simpl. intros [= <- <- <-].
    split_and!; [done | done | lia |].
    right. split; [done|]. right. split; [done|]. by apply trimmed_refl.
Qed.
End Effects.

(** ** Histories of calls *)

Section Histories.
Import RateLimiter.
Implicit Types (self : t) (c : string) (calls : list call)
  (w : nat * t) (log : list entry).
Variable clock : nat → Z.

Lemma admitted_app c log1 log2 :
  admitted clock c (log1 ++ log2)
  = admitted clock c log1 ++ admitted clock c log2.
Proof. unfold admitted. by rewrite flat_map_app. Qed.

Lemma admitted_cons c e log :
  admitted clock c (e :: log) = admitted clock c [e] ++ admitted clock c log.
Proof. apply (admitted_app c [e] log). Qed.

(** *** Bounded deques *)

Lemma step_bounded cl w :
  bounded w.2 → bounded (step clock cl w).2.2.
Proof.
  destruct w as [tick self]. intros Hb c.
  destruct (step clock cl (tick, self)) as [r [tick' self']] eqn:Hstep.
  destruct (step_effect clock c _ _ _ _ _ _ Hstep)
    as (Hmax & _ & _ & Heffect).
  simpl in *. rewrite Hmax. specialize (Hb c).
  destruct Heffect
    as [(_ & _ & stale & kept & _ & _ & Hlt & ->)
       |(_ & [[_ ->]|[_ [stale [Hq _]]]])].
  - rewrite length_app. simpl. lia.
  - simpl. lia.
  - rewrite Hq, length_app in Hb. lia.
Qed.

Lemma run_bounded calls w :
  bounded w.2 → bounded (run clock calls w).2.2.
Proof.
  revert w. induction calls as [|cl calls IH]; intros w Hb; simpl; [done|].
  pose proof (step_bounded cl w Hb) as Hb'.
  destruct (step clock cl w) as [r w'].
  specialize (IH w' Hb').
  by destruct (run clock calls w') as [log w''].
Qed.

Lemma run_config calls w :
  max_requests (run clock calls w).2.2 = max_requests w.2
  ∧ time_window (run clock calls w).2.2 = time_window w.2.
Proof.
  revert w. induction calls as [|cl calls IH]; intros w; simpl; [done|].
  destruct w as [tick self].
  destruct (step clock cl (tick, self)) as [r [tick' self']] eqn:Hstep.
  destruct (step_effect clock "" _ _ _ _ _ _ Hstep) as (Hmax & Hwin & _).
  specialize (IH (tick', self')).
  destruct (run clock calls (tick', self')) as [log w'']. simpl in *.
  destruct IH. split; congruence.
Qed.

(** *** Bounded admission *)

Hypothesis clock_monotone : ∀ i j, (i ≤ j)%nat → clock i ≤ clock j.

Lemma step_admission_invariant c cl seen w :
  cl ≠ ResetClient c →
  admission_invariant clock c seen w →
  admission_invariant clock c
    (seen ++ admitted clock c [(w.1, cl, (step clock cl w).1)])
    (step clock cl w).2.
Proof.
  destruct w as [tick self]. intros Hcl [(gone & Hseen & Hgone) Hwindow].
  destruct (step clock cl (tick, self)) as [r [tick' self']] eqn:Hstep.
  destruct (step_effect clock c _ _ _ _ _ _ Hstep)
    as (Hmax & Hwin & Hticks & Heffect).
  unfold admission_invariant. simpl in *. rewrite Hmax, Hwin.
  destruct Heffect
    as [(-> & Hlt & stale & kept & Hq & Hstale & Hroom & Hq')
       |(-> & [[-> _]|[_ [stale [Hq Hstale]]]])]; [| done |].
  - (* admitted *)
    split.
    + exists (gone ++ stale). split.
      * by rewrite Hseen, Hq, Hq', !app_assoc.
      * apply Forall_app. split.
        -- eapply Forall_impl; [done|]. simpl. intros d Hd k Hk.
           apply Hd. lia.
        -- eapply Forall_impl; [done|]. simpl. intros d Hd k Hk.
           pose proof (clock_monotone tick k ltac:(lia)). lia.
    + intros a b Hab. rewrite filter_app, length_app.
    destruct (decide (a ≤ clock tick ≤ b)) as [Hin|Hout].
    * rewrite Hseen, Hq, !filter_app, !length_app.
      rewrite (filter_keep_none _ gone), (filter_keep_none _ stale).
      -- pose proof (length_filter (λ t, a ≤ t ≤ b) kept).
         rewrite filter_cons_True by done. simpl. lia.
      -- eapply Forall_impl; [done|]. simpl. lia.
      -- eapply Forall_impl; [done|]. simpl. intros d Hd.
         specialize (Hd tick ltac:(lia)). lia.
    * rewrite filter_cons_False by done. simpl.
      specialize (Hwindow a b Hab). lia.
- (* trimmed *)
    rewrite app_nil_r. split; [|done].
    exists (gone ++ stale). split.
    + by rewrite Hseen, Hq, app_assoc.
    + apply Forall_app. split.
      * eapply Forall_impl; [done|]. simpl. intros d Hd k Hk.
        apply Hd. lia.
      * eapply Forall_impl; [done|]. simpl. intros d (k0 & Hk0 & Hd) k Hk.
        pose proof (clock_monotone k0 k ltac:(lia)). lia.
Qed.

Lemma run_admission_invariant c calls seen w :
  ResetClient c ∉ calls →
  admission_invariant clock c seen w →
  admission_invariant clock c
    (seen ++ admitted clock c (run clock calls w).1)
    (run clock calls w).2.
Proof.
  revert seen w. induction calls as [|cl calls IH]; intros seen w Hcalls Hinv.
  - simpl. by rewrite app_nil_r.
  - apply not_elem_of_cons in Hcalls as [Hcl Hcalls].
    pose proof (step_admission_invariant c cl seen w ltac:(done) Hinv) as Hinv'.
    cbn [run]. destruct (step clock cl w) as [r w'].
    specialize (IH _ w' Hcalls Hinv').
    destruct (run clock calls w') as [log w'']. cbn [fst snd] in *.
    by rewrite admitted_cons, app_assoc.
Qed.
End Histories.

(** C10. From [RateLimiter(max_requests, time_window)], for any integers,
    any sequence of calls of the six methods and any clock, every tracked
    client's deque holds at most [max(max_requests, 0)] instants. *)
Theorem tracked_deques_bounded (clock : nat → Z) (max_requests time_window : Z)
    (calls : list call) (tick : nat) :
  map_Forall (λ _ q, Z.of_nat (length q) ≤ Z.max max_requests 0)
    (RateLimiter.request_history
       (run clock calls (tick, fresh max_requests time_window)).2.2).
Proof.
  pose proof (run_bounded clock calls (tick, fresh max_requests time_window))
    as Hb.
  destruct (run_config clock calls (tick, fresh max_requests time_window))
    as [Hmax _].
  simpl in *. intros c q Hc.
  rewrite <-Hmax.
  assert (bounded (fresh max_requests time_window)) as Hfresh.
  { intros c'. unfold deque_of. simpl. rewrite lookup_empty. simpl. lia. }
  specialize (Hb Hfresh c). unfold deque_of in Hb. by rewrite Hc in Hb.
Qed.

(** C1. From [RateLimiter(max_requests, time_window)] with
    [max_requests >= 0], under a clock that never moves backward, and for any
    sequence of calls that does not reset the client, at most [max_requests]
    of the client's admitted requests fall in any interval of length
    [time_window], taken half-open at either end: [[s, s + time_window)] or
    [(s, s + time_window]]. *)
Theorem bounded_admission (clock : nat → Z) (max_requests time_window : Z)
    (calls : list call) (tick : nat) (c : string) (s : Z) :
  0 ≤ max_requests →
  (∀ i j, (i ≤ j)%nat → clock i ≤ clock j) →
  ResetClient c ∉ calls →
  let times :=
    admitted clock c
      (run clock calls (tick, fresh max_requests time_window)).1 in
  Z.of_nat (length (filter (λ t, s ≤ t < s + time_window) times))
  ≤ max_requests
  ∧ Z.of_nat (length (filter (λ t, s < t ≤ s + time_window) times))
    ≤ max_requests.
Proof.
  intros Hmax Hclock Hcalls times.
  pose proof (run_admission_invariant clock Hclock c calls []
                (tick, fresh max_requests time_window) Hcalls) as Hinv.
  destruct (run_config clock calls (tick, fresh max_requests time_window))
    as [Hmax' Hwin'].
  destruct Hinv as [_ Hwindow].
  - split.
    + exists []. split; [|done]. unfold deque_of. simpl.
      by rewrite lookup_empty.
    + intros a b _. simpl. lia.
  - simpl in Hwindow, Hmax', Hwin'. rewrite Hmax', Hwin' in Hwindow.
    fold times in Hwindow. split.
    + specialize (Hwindow s (s + time_window - 1) ltac:(lia)).
      erewrite list_filter_iff; [exact Hwindow|]. intros t. simpl. lia.
    + specialize (Hwindow (s + 1) (s + time_window) ltac:(lia)).
      erewrite list_filter_iff; [exact Hwindow|]. intros t. simpl. lia.
Qed.

Lemma bounded_admission_witness :
  let clock (n : nat) := 4 * Z.of_nat n in
  let calls := replicate 4 (AllowRequest "10.0.0.1") in
  let times := admitted clock "10.0.0.1" (run clock calls (0%nat, fresh 2 10)).1 in
  (0 ≤ 2)
  ∧ (∀ i j, (i ≤ j)%nat → clock i ≤ clock j)
  ∧ (ResetClient "10.0.0.1" ∉ calls)
  ∧ times = [0; 4; 12]
  ∧ Z.of_nat (length (filter (λ t, 3 ≤ t < 3 + 10) times)) ≤ 2
  ∧ Z.of_nat (length (filter (λ t, 3 < t ≤ 3 + 10) times)) ≤ 2.
Proof.
  intros clock calls times.
  assert (∀ i j, (i ≤ j)%nat → clock i ≤ clock j) as Hclock
    by (intros i j Hij; unfold clock; lia).
  assert (ResetClient "10.0.0.1" ∉ calls) as Hcalls
    by (apply (bool_decide_unpack _); reflexivity).
  split_and!; [lia | exact Hclock | exact Hcalls | reflexivity | |];
    apply (bounded_admission clock 2 10 calls 0 "10.0.0.1" 3
             ltac:(lia) Hclock Hcalls).
Defined.

(** The interval of C1 cannot be closed at both ends: with one request per
    ten seconds, the requests at the two ends of [[0, 10]] are both
    admitted. *)
Example closed_interval_admits_both_ends :
  let clock (n : nat) := 10 * Z.of_nat n in
  admitted clock "10.0.0.1"
    (run clock (replicate 2 (AllowRequest "10.0.0.1")) (0%nat, fresh 1 10)).1
  = [0; 10].
Proof. reflexivity. Qed.

(** [reset_client] is outside C1: it forgets the admitted requests. *)
Example reset_client_reopens_the_window :
  let clock (n : nat) := Z.of_nat n in
  admitted clock "10.0.0.1"
    (run clock [AllowRequest "10.0.0.1"; ResetClient "10.0.0.1";
                AllowRequest "10.0.0.1"] (0%nat, fresh 1 10)).1
  = [0; 1].
Proof. reflexivity. Qed.

(** The example of the specification: limit 2 per 10 seconds; requests at 0
    and 5 are admitted, the one at 9 is rejected, the one at 11 admitted. *)
Example sliding_window_example :
  let clock (n : nat) := nth n [0; 5; 9; 11] 11 in
  snd <$> (run clock (replicate 4 (AllowRequest "10.0.0.1"))
                 (0%nat, fresh 2 10)).1
  = [RBool true; RBool true; RBool false; RBool true].
Proof. reflexivity. Qed.

(** ** Methods of [AdvancedRateLimiter] *)

Section Tiers.
Import AdvancedRateLimiter.
Implicit Types (self : t) (now : Z) (c name : string).

Lemma with_limiters_id self : with_limiters self (limiters self) = self.
Proof. by destruct self. Qed.

(** Run the monadic plumbing of a method. *)
Ltac run_method :=
  cbv beta iota delta
    [mbind M_bind mret M_ret gets modify lift raise limiter_of add_tier
     RateLimiter.init].

Lemma add_tier_unfold name max_requests time_window self :
  add_tier name max_requests time_window self
  = (Returned (),
     with_limiters self
       (<[name := RateLimiter.Build max_requests time_window ∅]>
          (limiters self))).
Proof. reflexivity. Qed.

Lemma set_client_tier_unfold c name self :
  set_client_tier c name self
  = if decide (limiters self !! name = None) then
      (Raised (ValueError ("Tier '" +:+ name +:+ "' not found")), self)
    else
      (Returned (),
       with_client_tiers self (<[c := name]> (client_tiers self))).
Proof. unfold set_client_tier. run_method. by case_decide. Qed.

Lemma allow_request_unfold_tier now c self :
  let tier_name := default "default" (client_tiers self !! c) in
  let ls := with_default_tier tier_name self in
  allow_request now c self
  = match ls !! tier_name with
    | None => (Raised (KeyError tier_name), with_limiters self ls)
    | Some limiter =>
        (Returned (RateLimiter.allow_request now c limiter).1,
         with_limiters self
           (<[tier_name := (RateLimiter.allow_request now c limiter).2]> ls))
    end.
Proof.
  intros tier_name ls. subst ls. unfold with_default_tier, allow_request.
  run_method. fold tier_name. case_decide as Htier.
  - run_method. simpl.
    destruct (<["default" := _]> (limiters self) !! tier_name)
      as [limiter|]; [|done].
    by destruct (RateLimiter.allow_request now c limiter).
  - rewrite with_limiters_id.
    destruct (limiters self !! tier_name) as [limiter|]; [|done].
    by destruct (RateLimiter.allow_request now c limiter).
Qed.

Lemma get_client_status_unfold_tier now c self :
  let tier_name := default "default" (client_tiers self !! c) in
  let ls := with_default_tier tier_name self in
  get_client_status now c self
  = match ls !! tier_name with
    | None => (Raised (KeyError tier_name), with_limiters self ls)
    | Some limiter =>
        (Returned
           {| base := (RateLimiter.get_client_status now c limiter).1;
              tier := tier_name |},
         with_limiters self
           (<[tier_name := (RateLimiter.get_client_status now c limiter).2]>
              ls))
    end.
Proof.
  intros tier_name ls. subst ls. unfold with_default_tier, get_client_status.
  run_method. fold tier_name. case_decide as Htier.
  - run_method. simpl.
    destruct (<["default" := _]> (limiters self) !! tier_name)
      as [limiter|]; [|done].
    by destruct (RateLimiter.get_client_status now c limiter).
  - rewrite with_limiters_id.
    destruct (limiters self !! tier_name) as [limiter|]; [|done].
    by destruct (RateLimiter.get_client_status now c limiter).
Qed.

Lemma with_default_tier_is_Some tier_name self n :
  is_Some (with_default_tier tier_name self !! n)
  ↔ is_Some (limiters self !! n)
    ∨ (limiters self !! tier_name = None ∧ n = "default").
Proof.
  unfold with_default_tier. case_decide as Htier.
  - rewrite lookup_insert_is_Some'. intuition (subst; eauto; congruence).
  - intuition (subst; eauto; congruence).
Qed.

Lemma resolved_limiters_is_Some tier_name self limiter n
    (ls := with_default_tier tier_name self) :
  is_Some (ls !! tier_name) →
  is_Some (<[tier_name := limiter]> ls !! n) ↔ is_Some (ls !! n).
Proof.
  intros Htier. rewrite lookup_insert_is_Some'.
  split; [intros [<-|?]; done | by right].
Qed.

(** A call registers exactly the tier names it passes to [add_tier]. *)
Lemma tier_step_registered now cl self n :
  is_Some (limiters (tier_step now cl self) !! n)
  ↔ is_Some (limiters self !! n) ∨ n ∈ add_tier_names cl self.
Proof.
  destruct cl as [name m w|c name|c|c]; simpl.
  - rewrite lookup_insert_is_Some', list_elem_of_singleton. intuition (subst; eauto; congruence).
  - rewrite set_client_tier_unfold, elem_of_nil.
    case_decide; simpl; intuition (subst; eauto; congruence).
  - rewrite allow_request_unfold_tier.
    set (tier_name := default "default" (client_tiers self !! c)).
    transitivity (is_Some (with_default_tier tier_name self !! n)).
    + destruct (with_default_tier tier_name self !! tier_name) eqn:Hres;
        simpl; [|done].
      apply resolved_limiters_is_Some. by rewrite Hres.
    + rewrite with_default_tier_is_Some.
      case_decide; rewrite ?list_elem_of_singleton, ?elem_of_nil; intuition (subst; eauto; congruence).
  - rewrite get_client_status_unfold_tier.
    set (tier_name := default "default" (client_tiers self !! c)).
    transitivity (is_Some (with_default_tier tier_name self !! n)).
    + destruct (with_default_tier tier_name self !! tier_name) eqn:Hres;
        simpl; [|done].
      apply resolved_limiters_is_Some. by rewrite Hres.
    + rewrite with_default_tier_is_Some.
      case_decide; rewrite ?list_elem_of_singleton, ?elem_of_nil; intuition (subst; eauto; congruence).
Qed.

Lemma tier_run_registered calls self n :
  is_Some (limiters (tier_run calls self).2 !! n)
  ↔ is_Some (limiters self !! n) ∨ n ∈ (tier_run calls self).1.
Proof.
  revert self. induction calls as [|[now cl] calls IH]; intros self.
  - simpl. rewrite elem_of_nil. intuition (subst; eauto; congruence).
  - cbn [tier_run]. specialize (IH (tier_step now cl self)).
    destruct (tier_run calls (tier_step now cl self)) as [names self'].
    cbn [fst snd] in *.
    rewrite IH, tier_step_registered, elem_of_app. intuition (subst; eauto; congruence).
Qed.

(** C4. After any history of calls on a new [AdvancedRateLimiter],
    [set_client_tier] with a tier name that no call registered through
    [add_tier] raises and leaves the object as it was; with a registered
    name it returns and maps the client to that name, replacing an earlier
    assignment, and changes nothing else. *)
Theorem set_client_tier_requires_registered_tier
    (calls : list (Z * tier_call)) c name :
  let names := (tier_run calls init).1 in
  let self := (tier_run calls init).2 in
  set_client_tier c name self
  = if decide (name ∈ names) then
      (Returned (),
       {| limiters := limiters self;
          client_tiers := <[c := name]> (client_tiers self) |})
    else
      (Raised (ValueError ("Tier '" +:+ name +:+ "' not found")), self).
Proof.
  intros names self. rewrite set_client_tier_unfold.
  pose proof (tier_run_registered calls init name) as Hreg.
  fold names self in Hreg. simpl in Hreg. rewrite lookup_empty in Hreg.
  destruct (decide (name ∈ names)) as [Hin|Hnin].
  - rewrite decide_False; [done|].
    apply not_eq_None_Some, Hreg. by right.
  - rewrite decide_True; [done|].
    apply eq_None_not_Some. rewrite Hreg. intros [[? [=]]|?]. done.
Qed.

Lemma allow_request_unassigned now c self
    (limiter := default (RateLimiter.Build 60 60 ∅)
                        (limiters self !! "default")) :
  client_tiers self !! c = None →
  allow_request now c self
  = (Returned (RateLimiter.allow_request now c limiter).1,
     with_limiters self
       (<["default" := (RateLimiter.allow_request now c limiter).2]>
          (limiters self))).
Proof.
  intros Hc. rewrite allow_request_unfold_tier. rewrite Hc. simpl.
  unfold with_default_tier. subst limiter.
  destruct (limiters self !! "default") as [limiter|] eqn:Hdefault; simpl.
  - by rewrite Hdefault.
  - rewrite lookup_insert_eq. by rewrite insert_insert_eq.
Qed.



End Tiers.

(** * Further properties of the limiter *)

(** ** What a call's answer depends on *)

Section Answers.
Import RateLimiter.
Implicit Types (self : t) (now : Z) (c : string).

Lemma allow_request_answer now c self :
  (allow_request now c self).1
  = bool_decide
      (Z.of_nat (length (expire (now - time_window self) (deque_of c self)))
       < max_requests self).
Proof.
  rewrite allow_request_unfold. simpl. case_decide.
  - by rewrite bool_decide_eq_false_2 by lia.
  - by rewrite bool_decide_eq_true_2 by lia.
Qed.

(** Two limiters with the same configuration whose deques for the client
    agree after trimming give the same answer and the same status. *)
Lemma answers_determined now c self1 self2 :
  max_requests self1 = max_requests self2 →
  time_window self1 = time_window self2 →
  expire (now - time_window self1) (deque_of c self1)
  = expire (now - time_window self2) (deque_of c self2) →
  (allow_request now c self1).1 = (allow_request now c self2).1
  ∧ (get_client_status now c self1).1 = (get_client_status now c self2).1.
Proof.
  intros Hmax Hwin Hq.
  rewrite !allow_request_answer, !get_client_status_unfold. simpl.
  by rewrite Hq, Hmax, Hwin.
Qed.

Lemma deque_of_allow_request_other now c c' self :
  c' ≠ c → deque_of c' (allow_request now c self).2 = deque_of c' self.
Proof.
  intros Hne. rewrite allow_request_unfold. cbv zeta.
  case_decide; cbn [snd]; rewrite deque_of_insert; by rewrite decide_False.
Qed.

(** X1. A second [get_client_status] at the same instant returns the same
    status and leaves the limiter as the first call left it. *)
Theorem get_client_status_idempotent now c self :
  get_client_status now c (get_client_status now c self).2
  = get_client_status now c self.
Proof.
  rewrite (get_client_status_unfold now c (get_client_status now c self).2).
  pose proof (deque_of_get_client_status now c c self) as Hq.
  rewrite decide_True in Hq by done.
  destruct (get_client_status_config now c self) as [Hmax Hwin].
  cbv zeta. rewrite Hq, Hmax, Hwin, expire_idemp.
  rewrite get_client_status_unfold. cbv zeta. cbn [fst snd]. f_equal.
  unfold with_history. simpl. by rewrite insert_insert_eq.
Qed.

(** X2. A status read changes no later answer: after
    [get_client_status] for any client at [now], every [allow_request] and
    [get_client_status], for any client at an instant not before [now],
    answers as it would have without the read. *)
Theorem get_client_status_transparent now now' c c' self :
  now ≤ now' →
  (allow_request now' c' (get_client_status now c self).2).1
  = (allow_request now' c' self).1
  ∧ (get_client_status now' c' (get_client_status now c self).2).1
    = (get_client_status now' c' self).1.
Proof.
  intros Hle.
  destruct (get_client_status_config now c self) as [Hmax Hwin].
  apply answers_determined; [done | done |].
  rewrite Hwin, deque_of_get_client_status.
  case_decide; [|done]. apply expire_later. lia.
Qed.

Lemma get_client_status_transparent_witness :
  let self := Build 2 10 {[ "10.0.0.1" := [0; 5] ]} in
  11 ≤ 12
  ∧ (allow_request 12 "10.0.0.1" (get_client_status 11 "10.0.0.1" self).2).1
    = (allow_request 12 "10.0.0.1" self).1
  ∧ (get_client_status 12 "10.0.0.1"
       (get_client_status 11 "10.0.0.1" self).2).1
    = (get_client_status 12 "10.0.0.1" self).1.
Proof.
  intros self. split; [lia|].
  apply (get_client_status_transparent 11 12 "10.0.0.1" "10.0.0.1" self). lia.
Defined.

(** X3. A cleanup changes no later answer: after [cleanup_old_entries] at
    [now], every [allow_request] and [get_client_status] at an instant not
    before [now] answers as it would have without the cleanup, also for the
    clients the cleanup removed. *)
Theorem cleanup_old_entries_transparent now now' c self :
  now ≤ now' →
  (allow_request now' c (cleanup_old_entries now self)).1
  = (allow_request now' c self).1
  ∧ (get_client_status now' c (cleanup_old_entries now self)).1
    = (get_client_status now' c self).1.
Proof.
  intros Hle.
  destruct (cleanup_old_entries_config now self) as [Hmax Hwin].
  apply answers_determined; [done | done |].
  rewrite Hwin, deque_of_cleanup_old_entries. apply expire_later. lia.
Qed.

Lemma cleanup_old_entries_transparent_witness :
  let self := Build 1 10 {[ "10.0.0.1" := [0]; "10.0.0.2" := [7] ]} in
  11 ≤ 12
  ∧ request_history (cleanup_old_entries 11 self) !! "10.0.0.1" = None
  ∧ (allow_request 12 "10.0.0.1" (cleanup_old_entries 11 self)).1
    = (allow_request 12 "10.0.0.1" self).1
  ∧ (get_client_status 12 "10.0.0.1" (cleanup_old_entries 11 self)).1
    = (get_client_status 12 "10.0.0.1" self).1.
Proof.
  intros self. split_and!; [lia | reflexivity | |];
    apply (cleanup_old_entries_transparent 11 12 "10.0.0.1" self); lia.
Defined.

(** X4. The status predicts the decision: at one instant,
    [get_client_status] reports [is_limited] exactly when [allow_request]
    would reject, and exactly when it reports no request left; the answer is
    the same whether or not the status was read first. *)
Theorem is_limited_iff_rejected now c self :
  let st := (get_client_status now c self).1 in
  is_limited st = negb (allow_request now c self).1
  ∧ is_limited st = bool_decide (requests_remaining st = 0)
  ∧ (allow_request now c (get_client_status now c self).2).1
    = (allow_request now c self).1.
Proof.
  intros st. subst st. split_and!.
  - rewrite allow_request_answer, get_client_status_unfold. simpl.
    case_bool_decide.
    + by rewrite bool_decide_eq_false_2 by lia.
    + by rewrite bool_decide_eq_true_2 by lia.
  - rewrite get_client_status_unfold. simpl.
    case_bool_decide.
    + by rewrite bool_decide_eq_true_2 by lia.
    + by rewrite bool_decide_eq_false_2 by lia.
  - destruct (get_client_status_config now c self) as [Hmax Hwin].
    apply answers_determined; [done | done |].
    rewrite Hwin, deque_of_get_client_status, decide_True by done.
    apply expire_idemp.
Qed.

(** X5. Clients do not interfere: [allow_request], [get_client_status] and
    [reset_client] for one client leave the entry of every other client as
    it was, and so change no answer given to another client. *)
Theorem other_clients_untouched now now' c c' self :
  c' ≠ c →
  request_history (allow_request now c self).2 !! c'
  = request_history self !! c'
  ∧ request_history (get_client_status now c self).2 !! c'
    = request_history self !! c'
  ∧ request_history (reset_client c self).2 !! c'
    = request_history self !! c'
  ∧ (allow_request now' c' (allow_request now c self).2).1
    = (allow_request now' c' self).1
  ∧ (allow_request now' c' (reset_client c self).2).1
    = (allow_request now' c' self).1.
Proof.
  intros Hne.
  assert (request_history (allow_request now c self).2 !! c'
          = request_history self !! c') as Hallow.
  { rewrite allow_request_unfold. cbv zeta.
    case_decide; simpl; by rewrite lookup_insert_ne. }
  assert (request_history (reset_client c self).2 !! c'
          = request_history self !! c') as Hreset.
  { rewrite reset_client_unfold. simpl. by rewrite lookup_delete_ne. }
  split_and!; [done | | done | |].
  - rewrite get_client_status_unfold. simpl. by rewrite lookup_insert_ne.
  - destruct (allow_request_config now c self) as [Hmax Hwin].
    apply answers_determined; [done | done |].
    unfold deque_of. by rewrite Hwin, Hallow.
  - apply answers_determined.
    + by rewrite reset_client_unfold.
    + by rewrite reset_client_unfold.
    + unfold deque_of. rewrite Hreset. by rewrite reset_client_unfold.
Qed.

Lemma other_clients_untouched_witness :
  let self := Build 1 10 {[ "10.0.0.1" := [3]; "10.0.0.2" := [4] ]} in
  "10.0.0.2" ≠ "10.0.0.1"
  ∧ request_history (allow_request 20 "10.0.0.1" self).2 !! "10.0.0.2"
    = Some [4]
  ∧ (allow_request 5 "10.0.0.2" (reset_client "10.0.0.1" self).2).1 = false.
Proof.
  intros self.
  assert ("10.0.0.2" ≠ "10.0.0.1") as Hne by discriminate.
  destruct (other_clients_untouched 20 5 "10.0.0.1" "10.0.0.2" self Hne)
    as (Hallow & _ & _ & _ & Hreset).
  split_and!; [exact Hne | by rewrite Hallow | by rewrite Hreset].
Defined.
End Answers.

(** ** Arrival order *)

Section Order.
Import RateLimiter.
Implicit Types (self : t) (now : Z) (c : string) (calls : list call).
Variable clock : nat → Z.
Hypothesis clock_monotone : ∀ i j, (i ≤ j)%nat → clock i ≤ clock j.

Lemma step_arrival_ordered cl w :
  arrival_ordered clock w → arrival_ordered clock (step clock cl w).2.
Proof.
  destruct w as [tick self]. intros Hord c.
  destruct (step clock cl (tick, self)) as [r [tick' self']] eqn:Hstep.
  destruct (step_effect clock c _ _ _ _ _ _ Hstep)
    as (_ & _ & Hticks & Heffect).
  destruct (Hord c) as [Hsorted Hpast]. simpl in *.
  destruct Heffect
    as [(_ & Hlt & stale & kept & Hq & _ & _ & ->)
       |(_ & [[_ ->]|[_ [stale [Hq _]]]])].
  - rewrite Hq in Hsorted, Hpast.
    apply StronglySorted_app in Hsorted as (_ & _ & Hkept).
    apply Forall_app in Hpast as [_ Hpast]. split.
    + apply StronglySorted_app. split_and!.
      * intros t1 t2 Ht1 ->%list_elem_of_singleton.
        rewrite Forall_forall in Hpast. by apply (Hpast t1 Ht1 tick).
      * done.
      * repeat constructor.
    + apply Forall_app. split.
      * eapply Forall_impl; [done|]. simpl. intros t Ht k Hk. apply Ht. lia.
      * constructor; [|done]. intros k Hk. apply clock_monotone. lia.
  - split; constructor.
  - rewrite Hq in Hsorted, Hpast.
    apply StronglySorted_app in Hsorted as (_ & _ & Hkept).
    apply Forall_app in Hpast as [_ Hpast]. split; [done|].
    eapply Forall_impl; [done|]. simpl. intros t Ht k Hk. apply Ht. lia.
Qed.

Lemma run_arrival_ordered calls w :
  arrival_ordered clock w → arrival_ordered clock (run clock calls w).2.
Proof.
  revert w. induction calls as [|cl calls IH]; intros w Hord; [done|].
  cbn [run]. pose proof (step_arrival_ordered cl w Hord) as Hord'.
  destruct (step clock cl w) as [r w']. specialize (IH w' Hord').
  by destruct (run clock calls w') as [log w''].
Qed.
End Order.

(** X6. Under a clock that never moves backward, after any sequence of
    calls on a new limiter every tracked deque is in non-decreasing order
    and holds no instant later than the next clock reading. *)
Theorem tracked_deques_in_arrival_order (clock : nat → Z)
    (max_requests time_window : Z) (calls : list call) (tick : nat) :
  (∀ i j, (i ≤ j)%nat → clock i ≤ clock j) →
  let w := run clock calls (tick, fresh max_requests time_window) in
  map_Forall (λ _ q, StronglySorted Z.le q ∧ Forall (λ t, t ≤ clock w.2.1) q)
             (RateLimiter.request_history w.2.2).
Proof.
  intros Hclock w c q Hc.
  assert (arrival_ordered clock (tick, fresh max_requests time_window)) as Hord.
  { intros c'. unfold deque_of. simpl. rewrite lookup_empty. simpl.
    split; constructor. }
  apply (run_arrival_ordered clock Hclock calls) in Hord.
  fold w in Hord. destruct (Hord c) as [Hsorted Hpast].
  unfold deque_of in Hsorted, Hpast. rewrite Hc in Hsorted, Hpast.
  simpl in *. split; [done|].
  eapply Forall_impl; [done|]. simpl. intros t Ht. by apply Ht.
Qed.

Lemma tracked_deques_in_arrival_order_witness :
  let clock (n : nat) := 4 * Z.of_nat n in
  let calls := [AllowRequest "10.0.0.1"; AllowRequest "10.0.0.1";
                GetStats; AllowRequest "10.0.0.1"] in
  let w := run clock calls (0%nat, fresh 3 10) in
  (∀ i j, (i ≤ j)%nat → clock i ≤ clock j)
  ∧ RateLimiter.request_history w.2.2 = {[ "10.0.0.1" := [4; 12] ]}
  ∧ map_Forall (λ _ q, StronglySorted Z.le q
                       ∧ Forall (λ t, t ≤ clock w.2.1) q)
               (RateLimiter.request_history w.2.2).
Proof.
  intros clock calls w.
  assert (∀ i j, (i ≤ j)%nat → clock i ≤ clock j) as Hclock
    by (intros i j Hij; unfold clock; lia).
  split_and!; [exact Hclock | reflexivity |].
  exact (tracked_deques_in_arrival_order clock 3 10 calls 0 Hclock).
Defined.

(** ** Counting the live instants *)

Section Counting.
Import RateLimiter.
Implicit Types (self : t) (now : Z) (c : string).

(** X7. On a deque in arrival order the trimming leaves exactly the instants
    after [now - time_window]: [allow_request] admits exactly when fewer
    than [max_requests] of the stored instants are that recent, and
    [get_client_status] stores those instants and reports their number. *)
Theorem allow_request_counts_recent now c self :
  StronglySorted Z.le (deque_of c self) →
  let recent := filter (λ t, now - time_window self < t) (deque_of c self) in
  (allow_request now c self).1
  = bool_decide (Z.of_nat (length recent) < max_requests self)
  ∧ deque_of c (get_client_status now c self).2 = recent
  ∧ requests_used (get_client_status now c self).1 = length recent.
Proof.
  intros Hsorted recent. subst recent.
  rewrite allow_request_answer, deque_of_get_client_status.
  rewrite decide_True by done. rewrite get_client_status_unfold. simpl.
  by rewrite expire_sorted.
Qed.

Lemma allow_request_counts_recent_witness :
  let self := Build 2 10 {[ "10.0.0.1" := [0; 5] ]} in
  StronglySorted Z.le (deque_of "10.0.0.1" self)
  ∧ (allow_request 9 "10.0.0.1" self).1 = false
  ∧ (allow_request 11 "10.0.0.1" self).1 = true
  ∧ deque_of "10.0.0.1" (get_client_status 11 "10.0.0.1" self).2 = [5].
Proof.
  intros self.
  assert (StronglySorted Z.le (deque_of "10.0.0.1" self)) as Hsorted.
  { apply (bool_decide_unpack _). reflexivity. }
  destruct (allow_request_counts_recent 9 "10.0.0.1" self Hsorted)
    as (Hnine & _ & _).
  destruct (allow_request_counts_recent 11 "10.0.0.1" self Hsorted)
    as (Heleven & Hkept & _).
  split_and!; [exact Hsorted | by rewrite Hnine | by rewrite Heleven
              | by rewrite Hkept].
Defined.

(** X8. After any sequence of calls on a new limiter with a non-negative
    limit, the status of any client at any instant satisfies
    [requests_used + requests_remaining = max_requests]. *)
Theorem requests_used_plus_remaining (clock : nat → Z)
    (max_requests time_window : Z) (calls : list call) (tick : nat) now c :
  0 ≤ max_requests →
  let self := (run clock calls (tick, fresh max_requests time_window)).2.2 in
  let st := (get_client_status now c self).1 in
  Z.of_nat (requests_used st) + requests_remaining st = max_requests
  ∧ status_max_requests st = max_requests.
Proof.
  intros Hmax self st. subst st.
  pose proof (run_bounded clock calls (tick, fresh max_requests time_window))
    as Hb.
  destruct (run_config clock calls (tick, fresh max_requests time_window))
    as [Hmax' _].
  fold self in Hb, Hmax'. simpl in Hb, Hmax'.
  assert (bounded (fresh max_requests time_window)) as Hfresh.
  { intros c'. unfold deque_of. simpl. rewrite lookup_empty. simpl. lia. }
  specialize (Hb Hfresh c).
  rewrite get_client_status_unfold. simpl.
  pose proof (expire_length (now - RateLimiter.time_window self)
                            (deque_of c self)).
  lia.
Qed.

Lemma requests_used_plus_remaining_witness :
  let clock (n : nat) := Z.of_nat n in
  let self :=
    (run clock (replicate 5 (AllowRequest "10.0.0.1")) (0%nat, fresh 3 10)).2.2 in
  let st := (get_client_status 6 "10.0.0.1" self).1 in
  0 ≤ 3
  ∧ requests_used st = 3%nat
  ∧ Z.of_nat (requests_used st) + requests_remaining st = 3.
Proof.
  intros clock self st. split_and!; [lia | reflexivity |].
  apply (requests_used_plus_remaining clock 3 10
           (replicate 5 (AllowRequest "10.0.0.1")) 0 6 "10.0.0.1").
  lia.
Defined.

Lemma length_filter_le_sum {A} (P : A → Prop) `{!∀ x, Decision (P x)}
    (f : A → nat) (l : list A) :
  (∀ x, P x → 1 ≤ f x)%nat →
  (length (filter P l) ≤ sum_list_with f l)%nat.
Proof.
  intros Hf. induction l as [|x l IH]; [done|]. simpl.
  destruct (decide (P x)) as [Hx|Hx].
  - rewrite filter_cons_True by done. specialize (Hf x Hx). simpl. lia.
  - rewrite filter_cons_False by done. lia.
Qed.

(** X9. The counts of [get_stats] are ordered: no more limited clients than
    active ones, no more active clients than tracked ones, and no more
    active clients than tracked instants. *)
Theorem get_stats_counts_ordered now self :
  let st := (get_stats now self).1 in
  (limited_clients st ≤ active_clients st)%nat
  ∧ (active_clients st ≤ total_clients st)%nat
  ∧ (active_clients st ≤ total_requests_tracked st)%nat.
Proof.
  intros st. subst st. rewrite get_stats_unfold. simpl. split_and!.
  - apply map_subseteq_size, map_filter_strong_subseteq_ext.
    intros c q [[Hrecent _] Hc]. done.
  - apply map_size_filter.
  - rewrite size_map_filter. apply length_filter_le_sum.
    intros [c q]. simpl. intros Hrecent.
    destruct q as [|t q]; [done|]. simpl. lia.
Qed.
End Counting.

(** ** The status of every client *)

Section AllClients.
Import RateLimiter.
Implicit Types (self : t) (now : Z) (c : string) (keys : list string).
Variable clock : nat → Z.

Lemma get_client_status_dom now c self :
  dom (request_history (get_client_status now c self).2)
  = {[c]} ∪ dom (request_history self).
Proof. rewrite get_client_status_unfold. simpl. apply dom_insert_L. Qed.

Lemma get_client_status_other now now' c c' self :
  c' ≠ c →
  (get_client_status now' c' (get_client_status now c self).2).1
  = (get_client_status now' c' self).1.
Proof.
  intros Hne. destruct (get_client_status_config now c self) as [Hmax Hwin].
  apply answers_determined; [done | done |].
  rewrite Hwin, deque_of_get_client_status. by rewrite decide_False.
Qed.

Lemma get_all_clients_status_statuses keys out tick self :
  NoDup keys →
  let res :=
    foldl (λ '(out, tick, self) client_id,
             let '(st, self) := get_client_status (clock tick) client_id self in
             (out ++ [st], S tick, self))
          (out, tick, self) keys in
  res.1.1
  = out ++ imap (λ i k, (get_client_status (clock (tick + i)) k self).1) keys
  ∧ res.1.2 = (tick + length keys)%nat
  ∧ dom (request_history res.2) = list_to_set keys ∪ dom (request_history self)
  ∧ (∀ i k, keys !! i = Some k →
            deque_of k res.2
            = deque_of k (get_client_status (clock (tick + i)) k self).2)
  ∧ (∀ k, k ∉ keys → deque_of k res.2 = deque_of k self).
Proof.
  revert out tick self.
  induction keys as [|k keys IH]; intros out tick self Hnodup; cbn [foldl].
  - simpl. split_and!; [by rewrite app_nil_r | lia | | done | done].
    by rewrite (left_id_L ∅ (∪)).
  - apply NoDup_cons in Hnodup as [Hk Hnodup].
    pose proof (get_client_status_dom (clock tick) k self) as Hdom.
    assert (∀ now' k', k' ∈ keys →
              (get_client_status now' k'
                 (get_client_status (clock tick) k self).2).1
              = (get_client_status now' k' self).1) as Hother.
    { intros now' k' Hk'. apply get_client_status_other. by intros ->. }
    pose proof (λ k', deque_of_get_client_status (clock tick) k' k self)
      as Hfirst.
    destruct (get_client_status_config (clock tick) k self) as [_ Hwin].
    destruct (get_client_status (clock tick) k self) as [st self1] eqn:Hst.
    specialize (IH (out ++ [st]) (S tick) self1 Hnodup).
    destruct IH as (Hout & Htick & Hdom' & Hlisted & Hrest).
    simpl in Hdom, Hother, Hfirst, Hwin. split_and!.
    + rewrite Hout, <-app_assoc. f_equal. simpl.
      rewrite Nat.add_0_r, Hst. simpl. f_equal.
      apply imap_ext. intros i k' Hi. simpl.
      rewrite Hother by (by eapply list_elem_of_lookup_2).
      by replace (tick + S i)%nat with (S (tick + i)) by lia.
    + rewrite Htick. simpl. lia.
    + rewrite Hdom', Hdom, list_to_set_cons.
      by rewrite (assoc_L (∪)), (comm_L (∪) (list_to_set keys)).
    + intros [|i] k' Hi; simpl in Hi.
      * injection Hi as <-. rewrite Hrest by done.
        by rewrite Nat.add_0_r, Hst.
      * rewrite (Hlisted i k' Hi), !deque_of_get_client_status.
        rewrite !decide_True by done. rewrite Hwin, Hfirst.
        rewrite decide_False.
        -- by replace (tick + S i)%nat with (S tick + i)%nat by lia.
        -- intros ->. by apply list_elem_of_lookup_2 in Hi.
    + intros k' [Hne Hk']%not_elem_of_cons.
      rewrite Hrest by done. rewrite Hfirst. by rewrite decide_False.
Qed.

(** X10. Given the order in which the dictionary lists its keys,
    [get_all_clients_status] returns one status per tracked client in that
    order, each equal to what [get_client_status] alone would return for
    that client at its own clock reading, and stores for each client the
    deque that call would store; it takes one reading per client and
    neither adds nor removes a tracked client. *)
Theorem get_all_clients_status_lists_tracked_clients tick keys self :
  keys ≡ₚ (map_to_list (request_history self)).*1 →
  let res := get_all_clients_status clock tick keys self in
  res.1.1 = imap (λ i k, (get_client_status (clock (tick + i)) k self).1) keys
  ∧ client_id <$> res.1.1 = keys
  ∧ res.1.2 = (tick + size (request_history self))%nat
  ∧ dom (request_history res.2) = dom (request_history self)
  ∧ (∀ i k, keys !! i = Some k →
            request_history res.2 !! k
            = request_history
                (get_client_status (clock (tick + i)) k self).2 !! k)
  ∧ step clock (GetAllClientsStatus keys) (tick, self)
    = (RStatuses res.1.1, (res.1.2, res.2)).
Proof.
  intros Hkeys res. subst res. unfold get_all_clients_status.
  assert (NoDup keys) as Hnodup.
  { rewrite Hkeys. apply NoDup_fst_map_to_list. }
  destruct (get_all_clients_status_statuses keys [] tick self Hnodup)
    as (Hout & Htick & Hdom & Hlisted & _).
  simpl in Hout. split_and!.
  - done.
  - rewrite Hout. clear. generalize tick. induction keys as [|k keys IH];
      intros tick'; [done|].
    simpl. rewrite get_client_status_unfold. simpl. f_equal.
    specialize (IH (S tick')). etrans; [|exact IH]. f_equal.
    apply imap_ext. intros i k' _. simpl.
    by replace (tick' + S i)%nat with (S tick' + i)%nat by lia.
  - rewrite Htick, Hkeys. by rewrite length_fmap, length_map_to_list.
  - rewrite Hdom. apply set_eq. intros c.
    rewrite elem_of_union, elem_of_list_to_set, elem_of_dom.
    split; [|by right]. intros [Hin|?]; [|done].
    rewrite Hkeys in Hin.
    apply list_elem_of_fmap in Hin as ([c' q] & -> & Hin).
    apply elem_of_map_to_list in Hin. by eexists.
  - intros i k Hi. specialize (Hlisted i k Hi). unfold deque_of in Hlisted.
    assert (is_Some (request_history
                       (foldl (λ '(out, tick, self) client_id,
                                 let '(st, self) :=
                                   get_client_status (clock tick) client_id self in
                                 (out ++ [st], S tick, self))
                              ([], tick, self) keys).2 !! k)) as [q Hq].
    { apply elem_of_dom. rewrite Hdom. apply elem_of_union. left.
      apply elem_of_list_to_set. by eapply list_elem_of_lookup_2. }
    rewrite Hq in Hlisted |- *. simpl in Hlisted. rewrite Hlisted.
    rewrite get_client_status_unfold. simpl. by rewrite lookup_insert_eq.
  - simpl. rewrite decide_True by done. unfold get_all_clients_status.
    by destruct (foldl _ _ _) as [[out tick1] self1].
Qed.
End AllClients.

Lemma get_all_clients_status_lists_tracked_clients_witness :
  let clock (n : nat) := 9 + Z.of_nat n in
  let self := RateLimiter.Build 1 10 {[ "b" := [0]; "a" := [0] ]} in
  let res := RateLimiter.get_all_clients_status clock 0 ["b"; "a"] self in
  ["b"; "a"] ≡ₚ (map_to_list (RateLimiter.request_history self)).*1
  ∧ RateLimiter.client_id <$> res.1.1 = ["b"; "a"]
  ∧ RateLimiter.requests_used <$> res.1.1 = [1; 0]%nat
  ∧ RateLimiter.request_history res.2 = {[ "b" := [0]; "a" := [] ]}.
Proof.
  intros clock self res.
  assert (["b"; "a"] ≡ₚ (map_to_list (RateLimiter.request_history self)).*1)
    as Hkeys by (apply (bool_decide_unpack _); by vm_compute).
  destruct (get_all_clients_status_lists_tracked_clients clock 0 ["b"; "a"]
              self Hkeys) as (_ & Hids & _).
  split_and!; [exact Hkeys | exact Hids | reflexivity | reflexivity].
Defined.

(** ** Cleanup, again *)

Section Cleanup.
Import RateLimiter.
Implicit Types (self : t) (now : Z) (c : string).

Lemma cleanup_old_entries_with_history now self :
  cleanup_old_entries now self
  = with_history self (request_history (cleanup_old_entries now self)).
Proof. unfold cleanup_old_entries. by destruct (cleanup_scan _ _). Qed.

Lemma cleanup_old_entries_lookup now c self :
  request_history (cleanup_old_entries now self) !! c
  = request_history self !! c
      ≫= λ q, match expire (now - time_window self) q with
               | [] => None
               | t :: q' => Some (t :: q')
               end.
Proof.
  rewrite cleanup_old_entries_history, map_lookup_filter, lookup_fmap.
  destruct (request_history self !! c) as [q|]; simpl; [|done].
  destruct (expire _ q) eqn:Hq.
  - by rewrite option_guard_False by (simpl; intuition congruence).
  - by rewrite option_guard_True.
Qed.

(** X11. After [cleanup_old_entries] every tracked client has a non-empty
    deque whose oldest instant is after [now - time_window], and a second
    cleanup at the same instant changes nothing. *)
Theorem cleanup_old_entries_leaves_live_clients now self :
  map_Forall (λ _ q, from_option (λ t, now - time_window self < t) False
                                 (head q))
             (request_history (cleanup_old_entries now self))
  ∧ cleanup_old_entries now (cleanup_old_entries now self)
    = cleanup_old_entries now self.
Proof.
  split.
  - intros c q Hq. rewrite cleanup_old_entries_lookup in Hq.
    destruct (request_history self !! c) as [q0|]; simpl in Hq; [|done].
    destruct (expire _ q0) as [|t q'] eqn:Hexp; [done|].
    injection Hq as <-. simpl. apply (expire_head _ q0). by rewrite Hexp.
  - rewrite (cleanup_old_entries_with_history now (cleanup_old_entries _ _)).
    rewrite (cleanup_old_entries_with_history now self) at 3.
    destruct (cleanup_old_entries_config now self) as [Hmax Hwin].
    unfold with_history. rewrite Hmax, Hwin. f_equal.
    apply map_eq. intros c. rewrite cleanup_old_entries_lookup, Hwin.
    rewrite cleanup_old_entries_lookup.
    destruct (request_history self !! c) as [q0|]; simpl; [|done].
    pose proof (expire_idemp (now - time_window self) q0) as Hidem.
    destruct (expire _ q0) as [|t q'] eqn:Hexp; [done|]. cbn -[expire].
    by rewrite Hidem.
Qed.
End Cleanup.

(** * Further properties of the tiered limiter *)

Section TierLaws.
Import AdvancedRateLimiter.
Implicit Types (self : t) (now : Z) (c name : string).

Lemma resolved_limiter c self :
  tiers_resolved self →
  limiters self !! tier_of c self = None →
  client_tiers self !! c = None ∧ limiters self !! "default" = None.
Proof.
  intros Hres Hnone. unfold tier_of in *.
  destruct (client_tiers self !! c) as [name|] eqn:Hc; simpl in *; [|done].
  destruct (Hres c name Hc) as [limiter Hlimiter]. congruence.
Qed.

Lemma allow_request_resolved now c self :
  tiers_resolved self →
  allow_request now c self
  = (Returned (RateLimiter.allow_request now c (limiter_for c self)).1,
     with_limiters self
       (<[tier_of c self
          := (RateLimiter.allow_request now c (limiter_for c self)).2]>
          (limiters self))).
Proof.
  intros Hres. unfold limiter_for.
  destruct (limiters self !! tier_of c self) as [limiter|] eqn:Htier.
  - rewrite allow_request_unfold_tier. cbv zeta. fold (tier_of c self).
    unfold with_default_tier. rewrite decide_False by congruence.
    by rewrite Htier.
  - destruct (resolved_limiter c self Hres Htier) as [Hc Hdefault].
    rewrite allow_request_unassigned by done. rewrite Hdefault.
    unfold tier_of. by rewrite Hc.
Qed.

Lemma get_client_status_resolved now c self :
  tiers_resolved self →
  get_client_status now c self
  = (Returned
       {| base := (RateLimiter.get_client_status now c (limiter_for c self)).1;
          tier := tier_of c self |},
     with_limiters self
       (<[tier_of c self
          := (RateLimiter.get_client_status now c (limiter_for c self)).2]>
          (limiters self))).
Proof.
  intros Hres. unfold limiter_for.
  rewrite get_client_status_unfold_tier. cbv zeta. fold (tier_of c self).
  unfold with_default_tier.
  destruct (limiters self !! tier_of c self) as [limiter|] eqn:Htier.
  - rewrite decide_False by congruence. by rewrite Htier.
  - destruct (resolved_limiter c self Hres Htier) as [Hc Hdefault].
    rewrite decide_True by done.
    assert (tier_of c self = "default") as -> by (unfold tier_of; by rewrite Hc).
    rewrite lookup_insert_eq. simpl. by rewrite insert_insert_eq.
Qed.

Lemma tiers_resolved_limiters self ls :
  tiers_resolved self →
  (∀ name, is_Some (limiters self !! name) → is_Some (ls !! name)) →
  tiers_resolved (with_limiters self ls).
Proof. intros Hres Hls c name Hc. apply Hls, (Hres c name Hc). Qed.

Lemma tier_step_resolved now cl self :
  tiers_resolved self → tiers_resolved (tier_step now cl self).
Proof.
  intros Hres. destruct cl as [name m w|c name|c|c]; simpl.
  - apply tiers_resolved_limiters; [done|]. intros name' Hname'.
    rewrite lookup_insert_is_Some'. by right.
  - rewrite set_client_tier_unfold. case_decide as Hname; [done|]. simpl.
    intros c' name'. simpl. rewrite lookup_insert_Some.
    intros [[_ <-]|[_ Hc']].
    + by apply not_eq_None_Some.
    + by apply (Hres c' name').
  - rewrite allow_request_resolved by done. simpl.
    apply tiers_resolved_limiters; [done|]. intros name' Hname'.
    rewrite lookup_insert_is_Some'. by right.
  - rewrite get_client_status_resolved by done. simpl.
    apply tiers_resolved_limiters; [done|]. intros name' Hname'.
    rewrite lookup_insert_is_Some'. by right.
Qed.

Lemma tier_run_resolved calls self :
  tiers_resolved self → tiers_resolved (tier_run calls self).2.
Proof.
  revert self. induction calls as [|[now cl] calls IH]; intros self Hres;
    [done|].
  cbn [tier_run]. specialize (IH _ (tier_step_resolved now cl self Hres)).
  by destruct (tier_run calls (tier_step now cl self)).
Qed.

(** X12. After any history of calls on a new [AdvancedRateLimiter],
    [allow_request] and [get_client_status] return for every client and
    raise nothing: they answer what the limiter of the client's tier
    answers (the assigned tier, else ['default']), the status carries that
    tier name, and the client's assignment is left as it was. *)
Theorem tiered_calls_never_raise (calls : list (Z * tier_call)) now c :
  let self := (tier_run calls init).2 in
  (allow_request now c self).1
  = Returned (RateLimiter.allow_request now c (limiter_for c self)).1
  ∧ (get_client_status now c self).1
    = Returned
        {| base := (RateLimiter.get_client_status now c (limiter_for c self)).1;
           tier := default "default" (client_tiers self !! c) |}
  ∧ client_tiers (allow_request now c self).2 = client_tiers self
  ∧ client_tiers (get_client_status now c self).2 = client_tiers self.
Proof.
  intros self.
  assert (tiers_resolved self) as Hres.
  { apply tier_run_resolved. intros c' name'. simpl. by rewrite lookup_empty. }
  rewrite allow_request_resolved, get_client_status_resolved by done.
  done.
Qed.

Lemma allow_request_other_client now now' c1 c2 (limiter : RateLimiter.t) :
  c2 ≠ c1 →
  (RateLimiter.allow_request now' c2
     (RateLimiter.allow_request now c1 limiter).2).1
  = (RateLimiter.allow_request now' c2 limiter).1.
Proof.
  intros Hne.
  destruct (allow_request_config now c1 limiter) as [Hmax Hwin].
  apply answers_determined; [done | done |].
  by rewrite Hwin, deque_of_allow_request_other.
Qed.

(** X13. Clients of a tiered limiter do not interfere: after any history
    of calls on a new [AdvancedRateLimiter], a request of one client changes
    no answer given to another client, whether the two share a tier or
    not. *)
Theorem tiered_clients_do_not_interfere
    (calls : list (Z * tier_call)) now now' c1 c2 :
  c2 ≠ c1 →
  let self := (tier_run calls init).2 in
  (allow_request now' c2 (allow_request now c1 self).2).1
  = (allow_request now' c2 self).1.
Proof.
  intros Hne self.
  assert (tiers_resolved self) as Hres.
  { apply tier_run_resolved. intros c' name'. simpl. by rewrite lookup_empty. }
  rewrite (allow_request_resolved now c1 self) by done. cbn [snd].
  set (limiter1 := (RateLimiter.allow_request now c1 (limiter_for c1 self)).2).
  rewrite !allow_request_resolved; cbn [fst].
  - f_equal. unfold limiter_for at 1. unfold tier_of at 1. cbn [client_tiers
      limiters with_limiters]. fold (tier_of c2 self).
    destruct (decide (tier_of c1 self = tier_of c2 self)) as [Heq|Hdiff].
    + rewrite Heq, lookup_insert_eq. simpl. subst limiter1.
      rewrite allow_request_other_client by done.
      unfold limiter_for. by rewrite Heq.
    + rewrite lookup_insert_ne by done. done.
  - done.
  - apply tiers_resolved_limiters; [done|]. intros name' Hname'.
    rewrite lookup_insert_is_Some'. by right.
Qed.

Lemma tiered_clients_do_not_interfere_witness :
  let calls := [(0, AddTier "free" 1 60); (0, SetClientTier "10.0.0.1" "free");
                (0, SetClientTier "10.0.0.2" "free")] in
  let self := (tier_run calls init).2 in
  "10.0.0.2" ≠ "10.0.0.1"
  ∧ (allow_request 1 "10.0.0.1" self).1 = Returned true
  ∧ (allow_request 2 "10.0.0.1" (allow_request 1 "10.0.0.1" self).2).1
    = Returned false
  ∧ (allow_request 2 "10.0.0.2" (allow_request 1 "10.0.0.1" self).2).1
    = Returned true.
Proof.
  intros calls self.
  assert ("10.0.0.2" ≠ "10.0.0.1") as Hne by discriminate.
  pose proof (tiered_clients_do_not_interfere calls 1 2 "10.0.0.1" "10.0.0.2"
                Hne) as Hsame.
  split_and!; [exact Hne | reflexivity | reflexivity |].
  fold self in Hsame. simpl in Hsame. rewrite Hsame. reflexivity.
Defined.

(** X14. [add_tier] starts the tier afresh: whatever the tier held before,
    the next request of a client that resolves to the tier is admitted
    exactly when the new limit is positive. *)
Theorem add_tier_discards_history now c name (max_requests time_window : Z) self :
  default "default" (client_tiers self !! c) = name →
  let self' := (add_tier name max_requests time_window self).2 in
  limiters self' !! name = Some (RateLimiter.Build max_requests time_window ∅)
  ∧ client_tiers self' = client_tiers self
  ∧ (allow_request now c self').1 = Returned (bool_decide (0 < max_requests)).
Proof.
  intros Hname self'. subst self'. rewrite add_tier_unfold. cbn [snd].
  split_and!; [apply lookup_insert_eq | done |].
  rewrite allow_request_unfold_tier. cbv zeta. cbn [client_tiers with_limiters].
  rewrite Hname. unfold with_default_tier. cbn [limiters with_limiters].
  rewrite lookup_insert_eq. rewrite decide_False by done.
  rewrite lookup_insert_eq. cbn [fst]. f_equal. rewrite allow_request_answer.
  unfold deque_of. simpl. rewrite lookup_empty. simpl.
  apply bool_decide_ext. lia.
Qed.

Lemma add_tier_discards_history_witness :
  let calls := [(0, AddTier "free" 1 60); (0, SetClientTier "10.0.0.1" "free");
                (1, TierAllowRequest "10.0.0.1")] in
  let self := (tier_run calls init).2 in
  default "default" (client_tiers self !! "10.0.0.1") = "free"
  ∧ (allow_request 2 "10.0.0.1" self).1 = Returned false
  ∧ (allow_request 2 "10.0.0.1" (add_tier "free" 1 60 self).2).1
    = Returned true.
Proof.
  intros calls self.
  assert (default "default" (client_tiers self !! "10.0.0.1") = "free")
    as Hname by reflexivity.
  destruct (add_tier_discards_history 2 "10.0.0.1" "free" 1 60 self Hname)
    as (_ & _ & Hanswer).
  split_and!; [exact Hname | reflexivity | by rewrite Hanswer].
Defined.
End TierLaws.

(** * The middleware *)

Section Middleware.
Import RateLimitMiddleware.
Context {P R E : Type}.
Implicit Types (rq : request P) (requests : list (request P)) (self : t).
Variable clock : nat → Z.
Variable call_next : request P → E + R.

(** A stream of requests drives the limiter as its [allow_request] calls do,
    and forwards exactly the admitted ones. *)
Lemma serve_as_run c requests tick self :
  let served := serve clock call_next requests (tick, self) in
  let ran := run clock (limiter_calls requests) (tick, rate_limiter self) in
  forwarded clock c served.1 = admitted clock c ran.1
  ∧ served.2.1 = ran.2.1
  ∧ rate_limiter served.2.2 = ran.2.2.
Proof.
  revert tick self. induction requests as [|rq requests IH]; intros tick self.
  - done.
  - cbn [serve limiter_calls omap list_omap]. unfold dispatch. cbn [fst snd].
    destruct (client rq) as [addr|] eqn:Hclient;
      cbn [fmap option_fmap option_map].
    + cbn [run step].
      destruct (RateLimiter.allow_request (clock tick) (host addr)
                  (rate_limiter self)) as [allowed limiter] eqn:Hallow.
      specialize (IH (S tick) {| rate_limiter := limiter |}).
      cbn [rate_limiter] in IH. fold (limiter_calls requests).
      destruct (run clock (limiter_calls requests) (S tick, limiter))
        as [log w'].
      assert (∀ r : raised E + R,
                (let '(log0, w0) :=
                   serve clock call_next requests
                     (S tick, {| rate_limiter := limiter |}) in
                 ((tick, rq, r) :: log0, w0))
                = ((tick, rq, r)
                   :: (serve clock call_next requests
                         (S tick, {| rate_limiter := limiter |})).1,
                   (serve clock call_next requests
                      (S tick, {| rate_limiter := limiter |})).2)) as Hpair.
      { intros r. by destruct (serve _ _ _ _). }
      destruct IH as (Hfwd & Htick & Hlim). cbn [fst snd] in *.
      destruct allowed; cbn [negb].
      * destruct (call_next rq) as [e|response]; rewrite Hpair; cbn [fst snd];
          (split_and!; [|done|done]);
          unfold forwarded, admitted in *; cbn [flat_map fst snd];
          by rewrite Hfwd, Hclient.
      * rewrite Hpair. cbn [fst snd]. split_and!; [|done|done].
        unfold forwarded, admitted in *. cbn [flat_map fst snd].
        by rewrite Hfwd, Hclient.
    + fold (limiter_calls requests). specialize (IH tick self).
      destruct (serve clock call_next requests (tick, self)) as [log w'].
      cbn [fst snd] in *. destruct IH as (Hfwd & Htick & Hlim).
      split_and!; [|done|done].
      unfold forwarded in *. cbn [flat_map fst snd].
      by rewrite Hfwd, Hclient.
Qed.

Lemma limiter_calls_no_reset c requests :
  ResetClient c ∉ limiter_calls requests.
Proof.
  unfold limiter_calls. intros Hin. apply list_elem_of_omap in Hin
    as (rq & _ & Hrq).
  by destruct (client rq).
Qed.

(** A request without client address raises at [request.client.host],
    before the limiter is called: the stream without these requests leaves
    the same log entries for the others, the same limiter and the same
    number of clock readings. *)
Lemma serve_skips_addressless requests tick self :
  let served := serve clock call_next requests (tick, self) in
  serve clock call_next (filter (λ rq, is_Some (client rq)) requests)
    (tick, self)
  = (filter (λ e, is_Some (client e.1.2)) served.1, served.2)
  ∧ Forall (λ e, client e.1.2 = None →
                 e.2 = inl (AttributeError
                              "'NoneType' object has no attribute 'host'"))
           served.1
  ∧ served.2.1
    = (tick + length (filter (λ rq, is_Some (client rq)) requests))%nat.
Proof.
  revert tick self. induction requests as [|rq requests IH]; intros tick self.
  - cbn. split_and!; [done | done | lia].
  - destruct (client rq) as [addr|] eqn:Hclient.
    + rewrite filter_cons_True by (by rewrite Hclient).
      cbn [serve]. cbn [fst snd].
      destruct (dispatch (clock tick) rq call_next self) as [r self1].
      rewrite Hclient. specialize (IH (S tick) self1).
      destruct IH as (IHserve & IHlog & IHtick). rewrite IHserve.
      destruct (serve clock call_next requests (S tick, self1)) as [log w'].
      cbn [fst snd length] in *. split_and!.
      * rewrite filter_cons_True by (cbn [fst snd]; by rewrite Hclient).
        done.
      * constructor; [|done]. cbn [fst snd]. by rewrite Hclient.
      * lia.
    + rewrite filter_cons_False by (rewrite Hclient; by intros [? ?]).
      cbn [serve]. unfold dispatch. rewrite Hclient. cbn [fst snd].
      specialize (IH tick self). destruct IH as (IHserve & IHlog & IHtick).
      rewrite IHserve.
      destruct (serve clock call_next requests (tick, self)) as [log w'].
      cbn [fst snd] in *. split_and!.
      * rewrite filter_cons_False
          by (cbn [fst snd]; rewrite Hclient; by intros [? ?]).
        done.
      * constructor; [|done]. done.
      * done.
Qed.

(** X15. The middleware built with [rate_limit_calls >= 0] forwards to
    [call_next], under a clock that never moves backward, at most
    [rate_limit_calls] requests of one client host in any interval of
    [rate_limit_seconds], half-open at either end; the application uses 100
    and 60.  A request without client address raises [AttributeError] and
    never reaches the limiter: the limiter and the number of clock readings
    after the stream are those of the [allow_request] calls made for the
    requests that have an address, and the stream without the addressless
    requests leaves the same limiter, the same number of readings and the
    same log entries for the others. *)
Theorem middleware_forwards_at_most_limit
    (rate_limit_calls rate_limit_seconds : Z) requests (tick : nat)
    (c : string) (s : Z) :
  0 ≤ rate_limit_calls →
  (∀ i j, (i ≤ j)%nat → clock i ≤ clock j) →
  let self := {| rate_limiter := fresh rate_limit_calls rate_limit_seconds |} in
  let served := serve clock call_next requests (tick, self) in
  let times := forwarded clock c served.1 in
  init rate_limit_calls rate_limit_seconds = Returned self
  ∧ Z.of_nat (length (filter (λ t, s ≤ t < s + rate_limit_seconds) times))
    ≤ rate_limit_calls
  ∧ Z.of_nat (length (filter (λ t, s < t ≤ s + rate_limit_seconds) times))
    ≤ rate_limit_calls
  ∧ Forall (λ e, client e.1.2 = None →
                 e.2 = inl (AttributeError
                              "'NoneType' object has no attribute 'host'"))
           served.1
  ∧ served.2.1
    = (tick + length (filter (λ rq, is_Some (client rq)) requests))%nat
  ∧ rate_limiter served.2.2
    = (run clock (limiter_calls requests)
         (tick, fresh rate_limit_calls rate_limit_seconds)).2.2
  ∧ serve clock call_next (filter (λ rq, is_Some (client rq)) requests)
      (tick, self)
    = (filter (λ e, is_Some (client e.1.2)) served.1, served.2).
Proof.
  intros Hmax Hclock self served times. split; [done|].
  destruct (serve_as_run c requests tick self) as (Hfwd & Htick & Hlim).
  destruct (serve_skips_addressless requests tick self)
    as (Hskip & Hraised & Hreadings).
  fold served in Hfwd, Htick, Hlim, Hskip, Hraised, Hreadings.
  fold times in Hfwd. cbn [rate_limiter self] in Hfwd, Htick, Hlim.
  set (w0 := (tick, fresh rate_limit_calls rate_limit_seconds)) in *.
  pose proof (run_admission_invariant clock Hclock c (limiter_calls requests)
                [] w0 (limiter_calls_no_reset c requests)) as Hinv.
  destruct (run_config clock (limiter_calls requests) w0) as [Hmax' Hwin'].
  destruct Hinv as [_ Hwindow].
  - split.
    + exists []. split; [|done]. unfold deque_of. simpl.
      by rewrite lookup_empty.
    + intros a b _. simpl. lia.
  - simpl in Hwindow, Hmax', Hwin'. rewrite Hmax', Hwin', <-Hfwd in Hwindow.
    split_and!; [| | exact Hraised | exact Hreadings | exact Hlim
                 | exact Hskip].
    + specialize (Hwindow s (s + rate_limit_seconds - 1) ltac:(lia)).
      erewrite list_filter_iff; [exact Hwindow|]. intros t. simpl. lia.
    + specialize (Hwindow (s + 1) (s + rate_limit_seconds) ltac:(lia)).
      erewrite list_filter_iff; [exact Hwindow|]. intros t. simpl. lia.
Qed.
End Middleware.

Lemma middleware_forwards_at_most_limit_witness :
  let clock (n : nat) := 0 in
  let call_next (rq : RateLimitMiddleware.request ()) : () + string :=
    inr "ok" in
  let rq :=
    RateLimitMiddleware.Request
      (Some (RateLimitMiddleware.Address "10.0.0.1" 443)) () in
  let anonymous := RateLimitMiddleware.Request None () in
  let self := RateLimitMiddleware.Build (fresh 100 60) in
  let served :=
    serve clock call_next (anonymous :: replicate 130 rq ++ [anonymous])
      (0%nat, self) in
  let times := forwarded clock "10.0.0.1" served.1 in
  0 ≤ 100
  ∧ (∀ i j, (i ≤ j)%nat → clock i ≤ clock j)
  ∧ length times = 100%nat
  ∧ Z.of_nat (length (filter (λ t, 0 ≤ t < 0 + 60) times)) ≤ 100
  ∧ served.2.1 = 130%nat.
Proof.
  intros clock call_next rq anonymous self served times.
  assert (∀ i j, (i ≤ j)%nat → clock i ≤ clock j) as Hclock
    by (intros i j Hij; unfold clock; lia).
  pose proof (middleware_forwards_at_most_limit clock call_next 100 60
                (anonymous :: replicate 130 rq ++ [anonymous]) 0 "10.0.0.1" 0
                ltac:(lia) Hclock)
    as (_ & Hwindow & _ & _ & Hreadings & _).
  split_and!; [lia | exact Hclock | by vm_compute | exact Hwindow |].
  by vm_compute.
Defined.

(** ** Rejected requests *)

Section Rejected.
Import RateLimiter.
Implicit Types (self : t) (now : Z) (c : string).

(** X16. A rejected request leaves no trace: it is not recorded, and every
    [allow_request] and [get_client_status] at an instant not before it, for
    any client, answers as if the rejected request had not been made. *)
Theorem rejected_request_leaves_no_trace now now' c c' self :
  (allow_request now c self).1 = false →
  now ≤ now' →
  deque_of c (allow_request now c self).2
  = expire (now - time_window self) (deque_of c self)
  ∧ (allow_request now' c' (allow_request now c self).2).1
    = (allow_request now' c' self).1
  ∧ (get_client_status now' c' (allow_request now c self).2).1
    = (get_client_status now' c' self).1.
Proof.
  intros Hrejected Hle.
  destruct (allow_request_config now c self) as [Hmax Hwin].
  assert (∀ c'', deque_of c'' (allow_request now c self).2
                 = if decide (c'' = c)
                   then expire (now - time_window self) (deque_of c self)
                   else deque_of c'' self) as Hq.
  { intros c''. rewrite allow_request_unfold in Hrejected |- *.
    cbv zeta in *. case_decide; [|done]. cbn [snd].
    rewrite deque_of_insert. by case_decide. }
  split; [by rewrite Hq, decide_True|].
  apply answers_determined; [done | done |]. rewrite Hwin, Hq.
  case_decide as Hc; [|done]. subst. apply expire_later. lia.
Qed.

Lemma rejected_request_leaves_no_trace_witness :
  let self := Build 1 10 {[ "10.0.0.1" := [5] ]} in
  (allow_request 9 "10.0.0.1" self).1 = false
  ∧ 9 ≤ 15
  ∧ (allow_request 15 "10.0.0.1" (allow_request 9 "10.0.0.1" self).2).1 = true.
Proof.
  intros self.
  assert ((allow_request 9 "10.0.0.1" self).1 = false) as Hrejected
    by reflexivity.
  destruct (rejected_request_leaves_no_trace 9 15 "10.0.0.1" "10.0.0.1" self
              Hrejected ltac:(lia)) as (_ & Hsame & _).
  split_and!; [exact Hrejected | lia | by rewrite Hsame].
Defined.
End Rejected.

(** * The content store *)

Section ContentStore.
Import ContentService.
Implicit Types (self : t) (items : list ContentResponse.t)
  (k : Z) (c : ContentResponse.t).

Local Notation "'has_id' k" :=
  (λ c, bool_decide (ContentResponse.id c = k)) (at level 10, k at level 9).

Lemma find_id_skip k items1 items2 :
  Forall (λ c, ContentResponse.id c ≠ k) items1 →
  find (has_id k) (items1 ++ items2) = find (has_id k) items2.
Proof.
  induction 1 as [|c items1 Hc _ IH]; [done|]. simpl.
  by rewrite bool_decide_eq_false_2.
Qed.

Lemma find_id_here k c items :
  ContentResponse.id c = k → find (has_id k) (c :: items) = Some c.
Proof. intros Hc. simpl. by rewrite bool_decide_eq_true_2. Qed.

Lemma find_id_split k items :
  match find (has_id k) items with
  | Some c =>
      ∃ items1 items2,
        items = items1 ++ c :: items2
        ∧ ContentResponse.id c = k
        ∧ Forall (λ c, ContentResponse.id c ≠ k) items1
  | None => Forall (λ c, ContentResponse.id c ≠ k) items
  end.
Proof.
  induction items as [|c items IH]; simpl; [done|].
  case_bool_decide as Hc.
  - by exists [], items.
  - destruct (find _ items) as [c'|].
    + destruct IH as (items1 & items2 & -> & Hc' & Hitems1).
      exists (c :: items1), items2. split_and!; [done | done | by constructor].
    + by constructor.
Qed.

Lemma delete_first_split k items :
  match delete_first k items with
  | Some items' =>
      ∃ items1 c items2,
        items = items1 ++ c :: items2
        ∧ items' = items1 ++ items2
        ∧ ContentResponse.id c = k
        ∧ Forall (λ c, ContentResponse.id c ≠ k) items1
  | None => Forall (λ c, ContentResponse.id c ≠ k) items
  end.
Proof.
  induction items as [|c items IH]; simpl; [done|].
  case_decide as Hc.
  - by exists [], c, items.
  - destruct (delete_first k items) as [items'|]; simpl.
    + destruct IH as (items1 & c' & items2 & -> & -> & Hc' & Hitems1).
      exists (c :: items1), c', items2.
      split_and!; [done | done | done | by constructor].
    + by constructor.
Qed.

Lemma update_first_split now k u items :
  match update_first now k u items with
  | Some (c', items') =>
      ∃ items1 c items2,
        items = items1 ++ c :: items2
        ∧ c' = apply_updates now u c
        ∧ items' = items1 ++ c' :: items2
        ∧ ContentResponse.id c = k
        ∧ Forall (λ c, ContentResponse.id c ≠ k) items1
  | None => Forall (λ c, ContentResponse.id c ≠ k) items
  end.
Proof.
  induction items as [|c items IH]; simpl; [done|].
  case_decide as Hc.
  - by exists [], c, items.
  - destruct (update_first now k u items) as [[c' items']|]; simpl.
    + destruct IH as (items1 & c0 & items2 & -> & -> & -> & Hc' & Hitems1).
      exists (c :: items1), c0, items2.
      split_and!; [done | done | done | done | by constructor].
    + by constructor.
Qed.

Variable crew : Z → ContentCreate.t → option (string * string).

Lemma create_content_cases now content_data self :
  create_content crew now content_data self
  = match ContentCreate.metadata content_data with
    | None =>
        (inl (Exception "Content creation failed: "
                (if bool_decide
                      (100 < len (ContentCreate.content content_data))%nat
                 then ValidationError else TypeError)),
         self)
    | Some metadata =>
        (inr (created crew now content_data metadata self),
         store self (created crew now content_data metadata self))
    end.
Proof.
  unfold create_content, created, ContentResponse.new.
  destruct (ContentCreate.metadata content_data) as [metadata|];
    case_decide.
  - by rewrite bool_decide_eq_true_2.
  - by rewrite bool_decide_eq_false_2.
  - by rewrite bool_decide_eq_true_2.
  - by rewrite bool_decide_eq_false_2.
Qed.

Lemma store_fresh self c :
  content_ids_fresh self →
  ContentResponse.id c = _next_id self →
  content_ids_fresh (store self c).
Proof.
  intros (Hsorted & Hbound & Hnext) Hc. unfold content_ids_fresh, store. simpl.
  rewrite fmap_app. simpl. split_and!; [| |lia].
  - apply StronglySorted_app. split_and!; [|done|repeat constructor].
    intros i1 i2 Hi1 ->%list_elem_of_singleton.
    rewrite Forall_forall in Hbound. specialize (Hbound i1 Hi1). lia.
  - apply Forall_app. split.
    + eapply Forall_impl; [done|]. simpl. lia.
    + constructor; [lia|done].
Qed.

Lemma content_step_fresh now cl self :
  content_ids_fresh self →
  content_ids_fresh (content_step crew now cl self)
  ∧ _next_id self ≤ _next_id (content_step crew now cl self).
Proof.
  intros Hfresh. destruct cl as [content_data|k| |k|k u]; simpl;
    [| done | done | |].
  - rewrite create_content_cases.
    destruct (ContentCreate.metadata content_data) as [metadata|]; [|done].
    simpl. split; [by apply store_fresh | lia].
  - unfold delete_content.
    pose proof (delete_first_split k (_content_store self)) as Hsplit.
    destruct (delete_first k (_content_store self)) as [items'|]; [|done].
    destruct Hsplit as (items1 & c & items2 & Hitems & -> & _ & _).
    destruct Hfresh as (Hsorted & Hbound & Hnext). simpl. split; [|done].
    unfold content_ids_fresh. simpl.
    rewrite Hitems, fmap_app, fmap_cons in Hsorted, Hbound.
    rewrite fmap_app. split_and!; [| |done].
    + apply StronglySorted_app in Hsorted as (Hlt & H1 & H2).
      apply StronglySorted_cons in H2 as [_ H2].
      apply StronglySorted_app. split_and!; [|done|done].
      intros i1 i2 Hi1 Hi2. apply Hlt; [done|]. by right.
    + apply Forall_app in Hbound as [H1 H2%Forall_cons_1].
      apply Forall_app. by destruct H2.
  - unfold update_content.
    pose proof (update_first_split now k u (_content_store self)) as Hsplit.
    destruct (update_first now k u (_content_store self)) as [[c' items']|];
      [|done].
    destruct Hsplit as (items1 & c & items2 & Hitems & -> & -> & _ & _).
    simpl. split; [|done]. unfold content_ids_fresh in *. simpl.
    rewrite Hitems in Hfresh. by rewrite !fmap_app, !fmap_cons in *.
Qed.

Lemma content_run_fresh calls self :
  content_ids_fresh self →
  content_ids_fresh (content_run crew calls self)
  ∧ _next_id self ≤ _next_id (content_run crew calls self).
Proof.
  revert self. induction calls as [|[now cl] calls IH]; intros self Hfresh;
    [done|].
  cbn [content_run foldl].
  destruct (content_step_fresh now cl self Hfresh) as [Hfresh' Hle].
  destruct (IH _ Hfresh') as [Hfresh'' Hle']. unfold content_run in *.
  split; [done|lia].
Qed.

Lemma init_fresh : content_ids_fresh init.
Proof. unfold content_ids_fresh. simpl. split_and!; [constructor..|lia]. Qed.

(** X17. Identifiers of the content service are never reused: after any
    history of calls on a new service the stored identifiers increase
    strictly, are at least 1 and lie below the counter; the counter never
    decreases; and an item created after any further calls gets an
    identifier above every identifier stored now and not below the counter
    of now, hence different from every identifier handed out before, deleted
    items included. *)
Theorem content_ids_never_reused (calls calls' : list (Z * content_call))
    now content_data :
  let self := content_run crew calls init in
  let self' := content_run crew calls' self in
  StronglySorted Z.lt (ContentResponse.id <$> _content_store self)
  ∧ Forall (λ i, 1 ≤ i < _next_id self)
           (ContentResponse.id <$> _content_store self)
  ∧ _next_id self ≤ _next_id self'
  ∧ match (create_content crew now content_data self').1 with
    | inr c =>
        _next_id self ≤ ContentResponse.id c
        ∧ Forall (λ i, i < ContentResponse.id c)
                 (ContentResponse.id <$> _content_store self)
    | inl _ => True
    end.
Proof.
  intros self self'.
  destruct (content_run_fresh calls init init_fresh) as [Hfresh _].
  fold self in Hfresh.
  destruct (content_run_fresh calls' self Hfresh) as [_ Hle].
  fold self' in Hle. destruct Hfresh as (Hsorted & Hbound & _).
  split_and!; [done | done | done |].
  rewrite create_content_cases.
  destruct (ContentCreate.metadata content_data) as [metadata|]; [|done].
  simpl. split; [done|]. eapply Forall_impl; [done|]. simpl. lia.
Qed.

Lemma find_id_snoc k items c :
  find (has_id k) (items ++ [c])
  = match find (has_id k) items with
    | Some c' => Some c'
    | None => if decide (ContentResponse.id c = k) then Some c else None
    end.
Proof.
  pose proof (find_id_split k items) as Hsplit.
  destruct (find (has_id k) items) as [c'|].
  - destruct Hsplit as (items1 & items2 & -> & Hc' & Hitems1).
    rewrite <-app_assoc, find_id_skip by done. by apply find_id_here.
  - rewrite find_id_skip by done. simpl. case_decide.
    + by rewrite bool_decide_eq_true_2.
    + by rewrite bool_decide_eq_false_2.
Qed.

(** X18. After any history of calls on a new service, [create_content]
    fails exactly when the metadata of the request is [None], and then
    leaves the service as it was; otherwise it appends one item with the
    counter as identifier and advances the counter, the item keeps the
    given content when that is longer than 100 characters and takes the
    generated content otherwise, [get_content] finds it under its
    identifier, and every other identifier resolves as before. *)
Theorem create_content_outcome (calls : list (Z * content_call))
    now content_data :
  let self := content_run crew calls init in
  let result := create_content crew now content_data self in
  match ContentCreate.metadata content_data with
  | None =>
      result.2 = self
      ∧ result.1
        = inl (Exception "Content creation failed: "
                 (if bool_decide
                       (100 < len (ContentCreate.content content_data))%nat
                  then ValidationError else TypeError))
  | Some metadata =>
      let c := created crew now content_data metadata self in
      result.1 = inr c
      ∧ ContentResponse.id c = _next_id self
      ∧ ContentResponse.content c
        = (if bool_decide
                (100 < len (ContentCreate.content content_data))%nat
           then ContentCreate.content content_data
           else content (_generate_with_agents crew now content_data))
      ∧ get_all_content result.2 = get_all_content self ++ [c]
      ∧ _next_id result.2 = _next_id self + 1
      ∧ ∀ k, get_content k result.2
             = if decide (k = ContentResponse.id c) then Some c
               else get_content k self
  end.
Proof.
  intros self result. subst result. rewrite create_content_cases.
  destruct (ContentCreate.metadata content_data) as [metadata|]; [|done].
  simpl. split_and!; [done..|]. intros k.
  unfold get_content, store. simpl. rewrite find_id_snoc.
  destruct (content_run_fresh calls init init_fresh) as [(_ & Hbound & _) _].
  fold self in Hbound.
  pose proof (find_id_split k (_content_store self)) as Hsplit.
  destruct (decide (k = _next_id self)) as [->|Hne].
  - destruct (find _ (_content_store self)) as [c'|].
    + destruct Hsplit as (items1 & items2 & Hitems & Hc' & _).
      rewrite Hitems, fmap_app, fmap_cons in Hbound.
      apply Forall_app in Hbound as [_ [Hc'' _]%Forall_cons_1]. lia.
    + by rewrite decide_True.
  - destruct (find _ (_content_store self)) as [c'|]; [done|].
    by rewrite decide_False.
Qed.

Lemma filter_id_skip k items :
  Forall (λ c, ContentResponse.id c ≠ k) items →
  filter (λ c, ContentResponse.id c ≠ k) items = items.
Proof. apply filter_keep_all. Qed.

(** X19. After any history of calls on a new service, [delete_content]
    answers whether the identifier was stored, leaves exactly the items with
    another identifier, in their order, and the counter as it was;
    afterwards [get_content] finds nothing under the identifier and every
    other identifier resolves as before. *)
Theorem delete_content_removes (calls : list (Z * content_call)) k :
  let self := content_run crew calls init in
  let result := delete_content k self in
  result.1 = bool_decide (is_Some (get_content k self))
  ∧ _content_store result.2
    = filter (λ c, ContentResponse.id c ≠ k) (_content_store self)
  ∧ _next_id result.2 = _next_id self
  ∧ ∀ k', get_content k' result.2
          = if decide (k' = k) then None else get_content k' self.
Proof.
  intros self result. subst result.
  destruct (content_run_fresh calls init init_fresh) as [(Hsorted & _) _].
  fold self in Hsorted. unfold delete_content, get_content.
  pose proof (delete_first_split k (_content_store self)) as Hsplit.
  destruct (delete_first k (_content_store self)) as [items'|].
  - destruct Hsplit as (items1 & c & items2 & Hitems & -> & Hc & Hitems1).
    rewrite Hitems in Hsorted |- *. simpl.
    rewrite fmap_app, fmap_cons in Hsorted.
    apply StronglySorted_app in Hsorted as (_ & _ & Hsorted).
    apply StronglySorted_cons in Hsorted as [Hlater _].
    assert (Forall (λ c, ContentResponse.id c ≠ k) items2) as Hitems2.
    { rewrite Forall_fmap in Hlater. eapply Forall_impl; [done|].
      simpl. lia. }
    split_and!; [| |done|].
    + rewrite find_id_skip by done. rewrite find_id_here by done.
      by rewrite bool_decide_eq_true_2.
    + rewrite filter_app, filter_cons_False by (intros Hne; by apply Hne).
      by rewrite !filter_id_skip.
    + intros k'. destruct (decide (k' = k)) as [->|Hne].
      * rewrite find_id_skip by done.
        pose proof (find_id_split k items2) as Hnone.
        destruct (find _ items2) as [c'|]; [|done].
        destruct Hnone as (l1 & l2 & -> & Hc' & _).
        apply Forall_app in Hitems2 as [_ [Hbad _]%Forall_cons_1]. done.
      * pose proof (find_id_split k' items1) as Hfirst.
        destruct (find (has_id k') items1) as [c'|] eqn:Hfind.
        -- destruct Hfirst as (l1 & l2 & -> & Hc' & Hl1).
           rewrite <-!app_assoc, !(find_id_skip k' l1) by done.
           simpl. by rewrite !bool_decide_eq_true_2.
        -- rewrite !find_id_skip by done. simpl.
           rewrite bool_decide_eq_false_2; [done|]. congruence.
  - simpl. split_and!; [| |done|].
    + pose proof (find_id_split k (_content_store self)) as Hnone.
      destruct (find _ (_content_store self)) as [c'|].
      * destruct Hnone as (l1 & l2 & Hitems & Hc' & _).
        rewrite Hitems in Hsplit.
        apply Forall_app in Hsplit as [_ [Hbad _]%Forall_cons_1]. done.
      * by rewrite bool_decide_eq_false_2 by (by intros [? ?]).
    + by rewrite filter_id_skip.
    + intros k'. case_decide as Hk; [|done]. subst k'.
      pose proof (find_id_split k (_content_store self)) as Hnone.
      destruct (find _ (_content_store self)) as [c'|]; [|done].
      destruct Hnone as (l1 & l2 & Hitems & Hc' & _).
      rewrite Hitems in Hsplit.
      apply Forall_app in Hsplit as [_ [Hbad _]%Forall_cons_1]. done.
Qed.

End ContentStore.

(** * The agent registry *)

Section AgentRegistry.
Import AgentService.
Implicit Types (self : t) (agents : list AgentResponse.t)
  (k : Z) (a : AgentResponse.t).

Local Notation "'has_id' k" :=
  (λ a, bool_decide (AgentResponse.id a = k)) (at level 10, k at level 9).

Lemma init_agents clock tick :
  init clock tick
  = inr ((tick + 3)%nat,
         {| _agent_store :=
              [ AgentResponse.Build 1
                  "Content Research Specialist" "researcher"
                  "Expert at researching topics and gathering comprehensive information"
                  ["research"; "analysis"; "fact-checking"; "trend-analysis"]
                  {[ "max_research_time" := JInt 300;
                     "sources_limit" := JInt 10 ]}
                  "active" (clock tick);
                AgentResponse.Build 2
                  "Professional Content Writer" "writer"
                  "Skilled writer who creates engaging and informative content"
                  ["writing"; "editing"; "seo-optimization"; "tone-adaptation"]
                  {[ "max_content_length" := JInt 2000;
                     "style" := JStr "professional" ]}
                  "active" (clock (S tick));
                AgentResponse.Build 3
                  "Quality Assurance Reviewer" "reviewer"
                  "Reviews and improves content quality and accuracy"
                  ["review"; "editing"; "quality-control"; "fact-verification"]
                  {[ "quality_threshold" := JDec 85 2;
                     "review_criteria" :=
                       JList [JStr "accuracy"; JStr "readability";
                              JStr "engagement"] ]}
                  "active" (clock (S (S tick))) ];
            _next_id := 4 |}).
Proof.
  unfold init, _initialize_default_agents, default_agents. simpl.
  unfold register. simpl. do 2 f_equal. lia.
Qed.

Lemma find_agent_dense k m agents :
  AgentResponse.id <$> agents = seqZ m (Z.of_nat (length agents)) →
  find (has_id k) agents
  = if decide (m ≤ k < m + Z.of_nat (length agents))
    then agents !! Z.to_nat (k - m) else None.
Proof.
  revert m. induction agents as [|a agents IH]; intros m Hids.
  - simpl. case_decide; [lia|done].
  - rewrite seqZ_cons in Hids by (simpl; lia). rewrite fmap_cons in Hids.
    injection Hids as Ha Hids.
    replace (Z.pred (Z.of_nat (S (length agents))))
      with (Z.of_nat (length agents)) in Hids by lia.
    specialize (IH _ Hids). simpl. case_bool_decide as Hk.
    + rewrite decide_True by lia.
      by replace (Z.to_nat (k - m)) with 0%nat by lia.
    + rewrite IH. destruct (decide (Z.succ m ≤ k < Z.succ m + _)).
      * rewrite decide_True by lia.
        by replace (Z.to_nat (k - m)) with (S (Z.to_nat (k - Z.succ m))) by lia.
      * rewrite decide_False by lia. done.
Qed.

Lemma set_status_first_split k status agents :
  match set_status_first k status agents with
  | Some agents' =>
      ∃ agents1 a agents2,
        agents = agents1 ++ a :: agents2
        ∧ agents' = agents1 ++ AgentResponse.with_status a status :: agents2
        ∧ AgentResponse.id a = k
        ∧ Forall (λ a, AgentResponse.id a ≠ k) agents1
  | None => Forall (λ a, AgentResponse.id a ≠ k) agents
  end.
Proof.
  induction agents as [|a agents IH]; simpl; [done|].
  case_decide as Ha.
  - by exists [], a, agents.
  - destruct (set_status_first k status agents) as [agents'|]; simpl.
    + destruct IH as (agents1 & a' & agents2 & -> & -> & Ha' & Hagents1).
      exists (a :: agents1), a', agents2.
      split_and!; [done | done | done | by constructor].
    + by constructor.
Qed.

Lemma update_agent_status_store k status self :
  AgentResponse.id <$> _agent_store (update_agent_status k status self).2
  = AgentResponse.id <$> _agent_store self
  ∧ AgentResponse.role <$> _agent_store (update_agent_status k status self).2
    = AgentResponse.role <$> _agent_store self
  ∧ length (_agent_store (update_agent_status k status self).2)
    = length (_agent_store self)
  ∧ _next_id (update_agent_status k status self).2 = _next_id self.
Proof.
  unfold update_agent_status.
  pose proof (set_status_first_split k status (_agent_store self)) as Hsplit.
  destruct (set_status_first k status (_agent_store self)) as [agents'|];
    [|done].
  destruct Hsplit as (agents1 & a & agents2 & -> & -> & _ & _). simpl.
  by rewrite !fmap_app, !fmap_cons, !length_app.
Qed.

Lemma create_agent_cases now agent_data self :
  create_agent now agent_data self
  = match AgentCreate.config agent_data with
    | None =>
        (inl (Exception "Agent creation failed: " ValidationError), self)
    | Some config =>
        let a :=
          AgentResponse.Build (_next_id self)
            (AgentCreate.name agent_data) (AgentCreate.role agent_data)
            (AgentCreate.description agent_data)
            (AgentCreate.capabilities agent_data) config "active" now in
        (inr a, register self a)
    end.
Proof.
  unfold create_agent, AgentResponse.new.
  by destruct (AgentCreate.config agent_data).
Qed.

Lemma register_dense self a :
  agent_ids_dense self →
  AgentResponse.id a = _next_id self →
  agent_ids_dense (register self a).
Proof.
  intros (Hids & Hnext & Hroles) Ha. unfold agent_ids_dense, register. simpl.
  rewrite fmap_app, length_app, Nat.add_1_r, seqZ_S, <-Hids. simpl.
  split_and!; [by rewrite Ha, Hnext, Z.add_comm | lia |].
  rewrite take_app_le; [done|].
  apply (f_equal length) in Hroles. rewrite length_fmap, length_take in Hroles.
  change (length ["researcher"; "writer"; "reviewer"]) with 3%nat in Hroles.
  lia.
Qed.

Lemma agent_step_dense now cl self :
  agent_ids_dense self → agent_ids_dense (agent_step now cl self).
Proof.
  intros Hdense.
  destruct cl as [agent_data|k| |role|k status| ]; simpl; [| done..| |done].
  - rewrite create_agent_cases.
    destruct (AgentCreate.config agent_data) as [config|]; [|done].
    by apply register_dense.
  - destruct Hdense as (Hids & Hnext & Hroles).
    destruct (update_agent_status_store k status self)
      as (Hids' & Hroles' & Hlen & Hnext').
    unfold agent_ids_dense. rewrite Hids', Hlen, Hnext'.
    split_and!; [done | done |].
    by rewrite fmap_take, Hroles', <-fmap_take.
Qed.

Lemma agent_run_dense calls self :
  agent_ids_dense self → agent_ids_dense (agent_run calls self).
Proof.
  revert self. induction calls as [|[now cl] calls IH]; intros self Hdense;
    [done|].
  cbn [agent_run foldl]. apply IH. by apply agent_step_dense.
Qed.

Lemma get_agents_by_role_default role (i : nat) self :
  agent_ids_dense self →
  ["researcher"; "writer"; "reviewer"] !! i = Some role →
  get_agents_by_role role self ≠ [].
Proof.
  intros (_ & _ & Hroles) Hrole.
  rewrite <-Hroles, list_lookup_fmap in Hrole.
  destruct (take 3 (_agent_store self) !! i) as [a|] eqn:Ha; [|done].
  injection Hrole as Hrole.
  apply lookup_take_Some in Ha as [Ha _].
  apply list_elem_of_lookup_2 in Ha.
  unfold get_agents_by_role. intros Hempty.
  by apply (filter_nil_not_elem_of _ _ a Hempty).
Qed.

(** X21. The registry never loses an agent.  A new service holds the three
    default agents; after any history of calls the identifiers are 1, 2, ...
    in registry order, the counter is one more than the number of agents,
    and a researcher, a writer and a reviewer are registered, so the
    availability check of [execute_content_workflow] cannot fail. *)
Theorem default_agents_stay_registered (clock : nat → Z) (tick : nat)
    (calls : list (Z * agent_call)) :
  match init clock tick with
  | inl _ => False
  | inr (tick', self0) =>
      let self := agent_run calls self0 in
      tick' = (tick + 3)%nat
      ∧ AgentResponse.id <$> get_all_agents self0 = [1; 2; 3]
      ∧ AgentResponse.id <$> get_all_agents self
        = seqZ 1 (Z.of_nat (length (get_all_agents self)))
      ∧ _next_id self = Z.of_nat (length (get_all_agents self)) + 1
      ∧ (3 ≤ length (get_all_agents self))%nat
      ∧ get_agents_by_role "researcher" self ≠ []
      ∧ get_agents_by_role "writer" self ≠ []
      ∧ get_agents_by_role "reviewer" self ≠ []
  end.
Proof.
  rewrite init_agents. cbv zeta.
  match goal with |- context [agent_run calls ?s] => set (self0 := s) end.
  assert (agent_ids_dense self0) as Hdense0 by done.
  pose proof (agent_run_dense calls self0 Hdense0) as Hdense.
  pose proof Hdense as (Hids & Hnext & Hroles).
  split_and!; [done | done | done | done | | |  |].
  - apply (f_equal length) in Hroles.
    rewrite length_fmap, length_take in Hroles.
    change (length ["researcher"; "writer"; "reviewer"]) with 3%nat in Hroles.
    unfold get_all_agents. lia.
  - by apply (get_agents_by_role_default _ 0).
  - by apply (get_agents_by_role_default _ 1).
  - by apply (get_agents_by_role_default _ 2).
Qed.

Lemma get_agent_dense k self :
  agent_ids_dense self →
  get_agent k self
  = if decide (1 ≤ k < _next_id self)
    then _agent_store self !! Z.to_nat (k - 1) else None.
Proof.
  intros (Hids & Hnext & _). unfold get_agent.
  rewrite (find_agent_dense k 1) by done. rewrite Hnext.
  case_decide; [by rewrite decide_True by lia | by rewrite decide_False by lia].
Qed.

Lemma agent_id_dense (i : nat) a self :
  agent_ids_dense self →
  _agent_store self !! i = Some a →
  AgentResponse.id a = Z.of_nat i + 1.
Proof.
  intros (Hids & _ & _) Ha.
  assert ((AgentResponse.id <$> _agent_store self) !! i
          = Some (AgentResponse.id a)) as Hi
    by by rewrite list_lookup_fmap, Ha.
  rewrite Hids in Hi. apply lookup_seqZ in Hi as [-> _]. lia.
Qed.

(** X22. After any history of calls on a new service, [get_agent] finds an
    agent exactly for the identifiers from 1 up to the number of registered
    agents, and it is the agent at that position of the registry. *)
Theorem get_agent_by_position (clock : nat → Z) (tick : nat)
    (calls : list (Z * agent_call)) k :
  match init clock tick with
  | inl _ => False
  | inr (_, self0) =>
      let self := agent_run calls self0 in
      get_agent k self
      = (if decide (1 ≤ k ≤ Z.of_nat (length (get_all_agents self)))
         then get_all_agents self !! Z.to_nat (k - 1) else None)
      ∧ (is_Some (get_agent k self)
         ↔ 1 ≤ k ≤ Z.of_nat (length (get_all_agents self)))
      ∧ from_option (λ a, AgentResponse.id a = k) True (get_agent k self)
  end.
Proof.
  rewrite init_agents. cbv zeta.
  match goal with |- context [agent_run calls ?s] => set (self0 := s) end.
  assert (agent_ids_dense self0) as Hdense0 by done.
  pose proof (agent_run_dense calls self0 Hdense0) as Hdense.
  set (self := agent_run calls self0) in *.
  rewrite get_agent_dense by done. unfold get_all_agents.
  pose proof Hdense as (_ & Hnext & _). rewrite Hnext.
  destruct (decide (1 ≤ k < Z.of_nat (length (_agent_store self)) + 1))
    as [Hk|Hk].
  - rewrite decide_True by lia.
    destruct (lookup_lt_is_Some_2 (_agent_store self) (Z.to_nat (k - 1)))
      as [a Ha]; [lia|].
    rewrite Ha. simpl. split_and!; [done | | ].
    + split; [lia | by eexists].
    + rewrite (agent_id_dense _ a self Hdense Ha). lia.
  - rewrite decide_False by lia. split_and!; [done | | done].
    split; [by intros [? ?] | lia].
Qed.

(** X23. After any history of calls on a new service, [create_agent] fails
    exactly when the configuration of the request is [None], and then leaves
    the registry as it was; otherwise it appends one agent, active, with the
    next identifier, [get_agent] finds it under that identifier, and every
    other identifier resolves as before. *)
Theorem create_agent_outcome (clock : nat → Z) (tick : nat)
    (calls : list (Z * agent_call)) now agent_data :
  match init clock tick with
  | inl _ => False
  | inr (_, self0) =>
      let self := agent_run calls self0 in
      let result := create_agent now agent_data self in
      match AgentCreate.config agent_data with
      | None =>
          result
          = (inl (Exception "Agent creation failed: " ValidationError), self)
      | Some config =>
          let a :=
            AgentResponse.Build
              (Z.of_nat (length (get_all_agents self)) + 1)
              (AgentCreate.name agent_data) (AgentCreate.role agent_data)
              (AgentCreate.description agent_data)
              (AgentCreate.capabilities agent_data) config "active" now in
          result.1 = inr a
          ∧ get_all_agents result.2 = get_all_agents self ++ [a]
          ∧ _next_id result.2 = _next_id self + 1
          ∧ ∀ k, get_agent k result.2
                 = if decide (k = AgentResponse.id a) then Some a
                   else get_agent k self
      end
  end.
Proof.
  rewrite init_agents. cbv zeta.
  match goal with |- context [agent_run calls ?s] => set (self0 := s) end.
  assert (agent_ids_dense self0) as Hdense0 by done.
  pose proof (agent_run_dense calls self0 Hdense0) as Hdense.
  set (self := agent_run calls self0) in *.
  rewrite create_agent_cases.
  destruct (AgentCreate.config agent_data) as [config|]; [|done].
  pose proof Hdense as (_ & Hnext & _). cbv zeta. unfold get_all_agents.
  rewrite <-Hnext. cbn [fst snd].
  set (a := AgentResponse.Build (_next_id self) _ _ _ _ _ _ _).
  assert (agent_ids_dense (register self a)) as Hdense'
    by by apply register_dense.
  split_and!; [done | done | done |]. intros k.
  rewrite !get_agent_dense by done. cbn [register _next_id _agent_store].
  change (AgentResponse.id a) with (_next_id self).
  destruct (decide (k = _next_id self)) as [->|Hne].
  - rewrite decide_True by lia. rewrite Hnext.
    rewrite lookup_app_r by lia.
    by replace (Z.to_nat (Z.of_nat (length (_agent_store self)) + 1 - 1)
                - length (_agent_store self))%nat with 0%nat by lia.
  - destruct (decide (1 ≤ k < _next_id self)) as [Hk|Hk].
    + rewrite decide_True by lia. rewrite lookup_app_l by lia. done.
    + by rewrite decide_False by lia.
Qed.

Lemma fmap_set_status_skip k status agents :
  Forall (λ a, AgentResponse.id a ≠ k) agents →
  (λ a, if decide (AgentResponse.id a = k)
        then AgentResponse.with_status a status else a) <$> agents
  = agents.
Proof.
  induction 1 as [|a agents Ha _ IH]; [done|].
  rewrite fmap_cons, IH. by rewrite decide_False.
Qed.

(** X24. After any history of calls on a new service,
    [update_agent_status] answers whether the identifier is registered, sets
    the status of the agent with that identifier and changes nothing else:
    no other agent, and no identifier, name, role or position. *)
Theorem update_agent_status_sets_one_status (clock : nat → Z) (tick : nat)
    (calls : list (Z * agent_call)) k status :
  match init clock tick with
  | inl _ => False
  | inr (_, self0) =>
      let self := agent_run calls self0 in
      let result := update_agent_status k status self in
      result.1 = bool_decide (is_Some (get_agent k self))
      ∧ get_all_agents result.2
        = (λ a, if decide (AgentResponse.id a = k)
                then AgentResponse.with_status a status else a)
            <$> get_all_agents self
      ∧ _next_id result.2 = _next_id self
      ∧ ∀ k', get_agent k' result.2
              = if decide (k' = k)
                then (λ a, AgentResponse.with_status a status)
                       <$> get_agent k self
                else get_agent k' self
  end.
Proof.
  rewrite init_agents. cbv zeta.
  match goal with |- context [agent_run calls ?s] => set (self0 := s) end.
  assert (agent_ids_dense self0) as Hdense0 by done.
  pose proof (agent_run_dense calls self0 Hdense0) as Hdense.
  set (self := agent_run calls self0) in *.
  assert (agent_ids_dense (update_agent_status k status self).2) as Hdense'.
  { apply (agent_step_dense 0 (UpdateAgentStatus k status) self Hdense). }
  destruct (update_agent_status_store k status self)
    as (_ & _ & Hlen & Hnext').
  assert (_agent_store (update_agent_status k status self).2
          = (λ a, if decide (AgentResponse.id a = k)
                  then AgentResponse.with_status a status else a)
              <$> _agent_store self
          ∧ (update_agent_status k status self).1
            = bool_decide (is_Some (get_agent k self))) as [Hstore Hanswer].
  { unfold update_agent_status. rewrite get_agent_dense by done.
    pose proof (set_status_first_split k status (_agent_store self)) as Hsplit.
    destruct (set_status_first k status (_agent_store self)) as [agents'|].
    - destruct Hsplit as (agents1 & a & agents2 & Hagents & -> & Ha & Hagents1).
      assert (_agent_store self !! length agents1 = Some a) as Hpos.
      { rewrite Hagents. by rewrite list_lookup_middle. }
      pose proof (agent_id_dense _ _ _ Hdense Hpos) as Hk.
      assert (Forall (λ a, AgentResponse.id a ≠ k) agents2) as Hagents2.
      { apply Forall_lookup. intros i a' Ha'.
        assert (_agent_store self !! (length agents1 + S i)%nat = Some a')
          as Hpos'.
        { rewrite Hagents. rewrite lookup_app_r by lia.
          by replace (length agents1 + S i - length agents1)%nat
            with (S i) by lia. }
        rewrite (agent_id_dense _ _ _ Hdense Hpos'). lia. }
      cbn [fst snd _agent_store]. split.
      + rewrite Hagents, fmap_app, fmap_cons.
        rewrite !fmap_set_status_skip by done. by rewrite decide_True.
      + apply lookup_lt_Some in Hpos. pose proof Hdense as (_ & Hnext & _).
        rewrite decide_True by lia.
        replace (Z.to_nat (k - 1)) with (length agents1) by lia.
        rewrite Hagents, list_lookup_middle by done.
        by rewrite bool_decide_eq_true_2 by by eexists.
    - cbn [fst snd]. split.
      + by rewrite fmap_set_status_skip.
      + case_decide as Hk; [|by rewrite bool_decide_eq_false_2
                                   by (by intros [? ?])].
        pose proof Hdense as (_ & Hnext & _).
        destruct (lookup_lt_is_Some_2 (_agent_store self) (Z.to_nat (k - 1)))
          as [a Ha]; [lia|].
        pose proof (agent_id_dense _ _ _ Hdense Ha) as Hid.
        apply list_elem_of_lookup_2 in Ha.
        rewrite Forall_forall in Hsplit. specialize (Hsplit a Ha). lia. }
  split_and!; [done | done | done |]. intros k'.
  rewrite !get_agent_dense by done. rewrite Hnext', Hstore, list_lookup_fmap.
  destruct (decide (k' = k)) as [->|Hne].
  - case_decide as Hk; [|done].
    destruct (_agent_store self !! Z.to_nat (k - 1)) as [a|] eqn:Ha; [|done].
    simpl. rewrite decide_True; [done|].
    rewrite (agent_id_dense _ _ _ Hdense Ha). lia.
  - case_decide as Hk; [|done].
    destruct (_agent_store self !! Z.to_nat (k' - 1)) as [a|] eqn:Ha; [|done].
    simpl. rewrite decide_False; [done|].
    rewrite (agent_id_dense _ _ _ Hdense Ha). lia.
Qed.

Lemma role_counts_foldl role agents (role_counts : gmap string nat) :
  foldl (λ (role_counts : gmap string nat) agent,
           <[AgentResponse.role agent
             := (default 0 (role_counts !! AgentResponse.role agent) + 1)%nat]>
             role_counts)
        role_counts agents !! role
  = match length (filter (λ a, AgentResponse.role a = role) agents) with
    | O => role_counts !! role
    | S n => Some (default 0 (role_counts !! role) + S n)%nat
    end.
Proof.
  revert role_counts. induction agents as [|a agents IH]; intros role_counts;
    [done|].
  cbn [foldl]. rewrite IH.
  destruct (decide (AgentResponse.role a = role)) as [Ha|Ha].
  - rewrite filter_cons_True by done. rewrite Ha, lookup_insert_eq. simpl.
    destruct (length _); f_equal; lia.
  - rewrite filter_cons_False by done. by rewrite lookup_insert_ne.
Qed.

(** X25. The statistics are consistent: active and inactive agents add up
    to the total and neither count is negative; [agents_by_role] has a role
    as key exactly when [get_agents_by_role] is non-empty for it, with the
    number of those agents as value; and [capabilities] lists each
    capability of a registered agent exactly once. *)
Theorem get_agent_statistics_consistent self role cap :
  let st := get_agent_statistics self in
  total_agents st = length (get_all_agents self)
  ∧ Z.of_nat (active_agents st) + inactive_agents st = Z.of_nat (total_agents st)
  ∧ 0 ≤ inactive_agents st
  ∧ agents_by_role st !! role
    = match length (get_agents_by_role role self) with
      | O => None
      | S n => Some (S n)
      end
  ∧ NoDup (capabilities st)
  ∧ (cap ∈ capabilities st
     ↔ ∃ a, a ∈ get_all_agents self ∧ cap ∈ AgentResponse.capabilities a).
Proof.
  intros st. subst st. unfold get_agent_statistics. simpl.
  pose proof (length_filter (λ a, AgentResponse.status a = "active")
                            (_agent_store self)).
  split_and!; [done | lia | lia | | apply NoDup_elements |].
  - rewrite role_counts_foldl. unfold get_agents_by_role.
    rewrite lookup_empty. by destruct (length _).
  - rewrite elem_of_elements, elem_of_list_to_set, list_elem_of_bind.
    unfold get_all_agents. split; intros (a & ? & ?); by exists a.
Qed.
End AgentRegistry.


(** * Metadata of generated content *)

Section GeneratedMetadata.
Import ContentService.
Variable crew : Z → ContentCreate.t → option (string * string).

(** X26. The metadata [create_content] stores: for content longer than 100
    characters, the metadata of the request as given; otherwise the keys
    [generation_method], [agents_used] and [generation_time] are set from
    the generation, replacing keys of the same name in the request, and
    every other key keeps the value of the request. *)
Theorem create_content_metadata now content_data self key :
  match (create_content crew now content_data self).1 with
  | inl _ => ContentCreate.metadata content_data = None
  | inr c =>
      ∃ metadata,
        ContentCreate.metadata content_data = Some metadata
        ∧ ContentResponse.metadata c !! key
          = if bool_decide
                 (100 < len (ContentCreate.content content_data))%nat
            then metadata !! key
            else
              let generated_content := _generate_with_agents crew now content_data in
              if decide (key = "generation_time") then
                Some (JStr (generation_time generated_content))
              else if decide (key = "agents_used") then
                Some (JList (JStr <$> agents_used generated_content))
              else if decide (key = "generation_method") then
                Some (JStr "multi_agent")
              else metadata !! key
  end.
Proof.
  rewrite create_content_cases.
  destruct (ContentCreate.metadata content_data) as [metadata|]; [|done].
  cbn [fst]. exists metadata. split; [done|].
  unfold created. cbn [ContentResponse.metadata].
  case_bool_decide; [done|]. cbv zeta.
  repeat case_decide; subst;
    rewrite ?lookup_insert_eq; try done;
    rewrite ?lookup_insert_ne by done; rewrite ?lookup_insert_eq; done.
Qed.

(** The threshold counts code points, as Python's [len] does: sixty times
    the two-byte letter e with acute accent is 120 bytes and 60 characters,
    and is handed to the agents. *)
Example create_content_counts_code_points now :
  let e_acute :=
    String (Ascii.ascii_of_nat 195)
           (String (Ascii.ascii_of_nat 169) EmptyString) in
  let text := String.concat EmptyString (replicate 60 e_acute) in
  let content_data := ContentCreate.Build "Accents" text "article" (Some ∅) in
  len e_acute = 1%nat
  ∧ len text = 60%nat
  ∧ String.length text = 120%nat
  ∧ match (create_content crew now content_data init).1 with
    | inl _ => False
    | inr c =>
        ContentResponse.content c
        = content (_generate_with_agents crew now content_data)
    end.
Proof.
  intros e_acute text content_data.
  assert (len text = 60%nat) as Hlen by (by vm_compute).
  split_and!; [by vm_compute | exact Hlen | by vm_compute |].
  unfold create_content.
  rewrite decide_False by (change (ContentCreate.content content_data)
                             with text; rewrite Hlen; lia).
  reflexivity.
Qed.
End GeneratedMetadata.
